(** * PassGen 98: the generation core of [src/javascript/main.js]

    A shallow embedding of the password generator's core: the rejection
    sampler [secureRandInt], the Fisher-Yates [secureShuffle], the pool
    construction and assembly of [generatePassword].

    JavaScript numbers that hold integers are [Z]; the 32-bit bitwise
    operators wrap as ECMAScript's ToInt32 does.  The platform CSPRNG is an
    infinite stream of words read through a cursor; every sampler call
    threads the cursor, so the number of words a call consumes is visible.
    The two [while] loops of the sampler take fuel. *)

From Stdlib Require Import ZArith Lia Bool Ascii DecimalString.
From stdpp Require Import base list strings.

Local Open Scope Z_scope.

(** ** 32-bit integer operators *)

Module Int32.

(** ToInt32: reduce modulo 2^32 into [-2^31, 2^31). *)
Definition to_int32 (z : Z) : Z := (z + 2^31) mod 2^32 - 2^31.

(** ToUint32, which is also what a store into a [Uint32Array] does. *)
Definition to_uint32 (z : Z) : Z := z mod 2^32.

(** [a << n]: the shift count is taken modulo 32. *)
Definition shl (a n : Z) : Z :=
  to_int32 (Z.shiftl (to_int32 a) (Z.land (to_uint32 n) 31)).

(** [a | b] *)
Definition or (a b : Z) : Z := to_int32 (Z.lor (to_int32 a) (to_int32 b)).

(** [a & b] *)
Definition and (a b : Z) : Z := to_int32 (Z.land (to_int32 a) (to_int32 b)).

End Int32.

(** ** The entropy source and the effect of a call *)

(** [crypto.getRandomValues] seen as an infinite supply of words; the word
    delivered by the [n]-th call is [s n], stored into a [Uint32Array]. *)
Definition entropy : Type := nat → Z.

Inductive exn : Type :=
| RangeError (msg : string).

(** What a call does: it returns a value and the advanced cursor, it throws,
    or one of its [while] loops is still running when the fuel is gone. *)
Inductive outcome (A : Type) : Type :=
| Ok (a : A) (pos : nat)
| Throw (e : exn)
| OutOfFuel.
Arguments Ok {A} a pos.
Arguments Throw {A} e.
Arguments OutOfFuel {A}.

(** Computations that read the cursor into the entropy stream. *)
Definition M (A : Type) : Type := nat → outcome A.

Definition ret {A} (a : A) : M A := fun pos => Ok a pos.

Definition bind {A B} (m : M A) (k : A → M B) : M B :=
  fun pos =>
    match m pos with
    | Ok a pos' => k a pos'
    | Throw e => Throw e
    | OutOfFuel => OutOfFuel
    end.

Notation "'let*' x ':=' m 'in' k" := (bind m (fun x => k))
  (at level 10, x name, m at level 100, k at level 200).

(** [crypto.getRandomValues(buf); buf[0]] with [buf = new Uint32Array(1)] *)
Definition getRandomValues (s : entropy) : M Z :=
  fun pos => Ok (Int32.to_uint32 (s pos)) (S pos).

(** ** secureRandInt *)

(** [let mask = 1; while (mask < max) mask = (mask << 1) | 1;] *)
Fixpoint mask_loop (fuel : nat) (mask max : Z) : option Z :=
  match fuel with
  | O => None
  | S fuel' =>
      if mask <? max
      then mask_loop fuel' (Int32.or (Int32.shl mask 1) 1) max
      else Some mask
  end.

(** [do { crypto.getRandomValues(buf); val = buf[0] & mask; } while (val >= max);] *)
Fixpoint draw_loop (fuel : nat) (s : entropy) (mask max : Z) : M Z :=
  match fuel with
  | O => fun _ => OutOfFuel
  | S fuel' =>
      let* w := getRandomValues s in
      let val := Int32.and w mask in
      if val >=? max then draw_loop fuel' s mask max else ret val
  end.

Definition secureRandInt (fuel : nat) (s : entropy) (max : Z) : M Z :=
  if max <=? 0 then fun _ => Throw (RangeError "max must be > 0")
  else
    match mask_loop fuel 1 max with
    | None => fun _ => OutOfFuel
    | Some mask => draw_loop fuel s mask max
    end.

(** ** Arrays and strings as JavaScript indexes them *)

(** An array element is a value or [undefined] ([None]); a hole reads as
    [undefined] too.  Reading outside the array gives [undefined]; writing
    at or past the end extends the array, leaving holes; a negative index is
    a property name, not an element. *)
Definition arr_get {A} (arr : list (option A)) (i : Z) : option A :=
  if i <? 0 then None
  else match arr !! Z.to_nat i with
       | Some v => v
       | None => None
       end.

Definition arr_set {A} (arr : list (option A)) (i : Z) (v : option A)
  : list (option A) :=
  if i <? 0 then arr
  else
    let n := Z.to_nat i in
    if decide (n < length arr)%nat then <[n := v]> arr
    else arr ++ replicate (n - length arr)%nat None ++ [v].

(** [str[i]] *)
Definition str_at (str : string) (i : Z) : option ascii :=
  if i <? 0 then None else String.get (Z.to_nat i) str.

(** [arr.join("")] on an array of one-character strings: [undefined]
    elements and holes contribute nothing. *)
Fixpoint join (arr : list (option ascii)) : string :=
  match arr with
  | [] => EmptyString
  | Some c :: rest => String c (join rest)
  | None :: rest => join rest
  end.

(** ** secureShuffle *)

(** [for (let i = arr.length - 1; i > 0; i--) { ... }], entered at [i]. *)
Fixpoint shuffle_loop {A} (fuel : nat) (s : entropy) (i : nat)
    (arr : list (option A)) : M (list (option A)) :=
  match i with
  | O => ret arr
  | S i' =>
      let* j := secureRandInt fuel s (Z.of_nat i + 1) in
      let ai := arr_get arr (Z.of_nat i) in
      let aj := arr_get arr j in
      shuffle_loop fuel s i' (arr_set (arr_set arr (Z.of_nat i) aj) j ai)
  end.

Definition secureShuffle {A} (fuel : nat) (s : entropy)
    (arr : list (option A)) : M (list (option A)) :=
  shuffle_loop fuel s (length arr - 1)%nat arr.

(** ** Character pools *)

Inductive pool_key : Type := upper | lower | digits | symbols.

Definition POOLS (k : pool_key) : string :=
  match k with
  | upper => "ABCDEFGHIJKLMNOPQRSTUVWXYZ"
  | lower => "abcdefghijklmnopqrstuvwxyz"
  | digits => "0123456789"
  | symbols => "!@#$%^&*()-_=+[]{}|;:,.<>?/~"
  end.

Record pool : Type := { key : pool_key; chars : string }.

Module AMBIGUOUS.
(** [new Set("0Ol1I|B8S5")] *)
Definition members : list ascii := String.list_ascii_of_string "0Ol1I|B8S5".
Definition has (c : ascii) : bool := existsb (Ascii.eqb c) members.
End AMBIGUOUS.

(** ** generatePassword *)

(** The values read from the form controls. *)
Record Config : Type := {
  cfg_length : Z;          (* parseInt(lengthSlider.value) *)
  useUpper : bool;
  useLower : bool;
  useDigits : bool;
  useSymbols : bool;
  noAmbig : bool;
  guarantee : bool
}.

Definition activePools (c : Config) : list pool :=
  (if useUpper c then [{| key := upper; chars := POOLS upper |}] else []) ++
  (if useLower c then [{| key := lower; chars := POOLS lower |}] else []) ++
  (if useDigits c then [{| key := digits; chars := POOLS digits |}] else []) ++
  (if useSymbols c then [{| key := symbols; chars := POOLS symbols |}] else []).

(** [[...p.chars].filter((c) => !AMBIGUOUS.has(c)).join("")] *)
Definition dropAmbiguous (str : string) : string :=
  String.string_of_list_ascii
    (List.filter (fun c => negb (AMBIGUOUS.has c)) (String.list_ascii_of_string str)).

Definition filteredPools (c : Config) : list pool :=
  List.filter (fun p => (0 <? String.length (chars p))%nat)
    (map (fun p => {| key := key p;
                      chars := if noAmbig c then dropAmbiguous (chars p)
                               else chars p |})
       (activePools c)).

(** [filteredPools.map((p) => p.chars).join("")] *)
Definition alphabet (c : Config) : string :=
  String.concat "" (map chars (filteredPools c)).

(** [for (const pool of filteredPools) if (pool.chars.length > 0)
      chars.push(pool.chars[secureRandInt(pool.chars.length)]);] *)
Fixpoint seed_loop (fuel : nat) (s : entropy) (pools : list pool)
    (acc : list (option ascii)) : M (list (option ascii)) :=
  match pools with
  | [] => ret acc
  | p :: rest =>
      if (0 <? String.length (chars p))%nat then
        let* k := secureRandInt fuel s (Z.of_nat (String.length (chars p))) in
        seed_loop fuel s rest (acc ++ [str_at (chars p) k])
      else seed_loop fuel s rest acc
  end.

(** [for (let i = 0; i < remaining; i++)
      chars.push(alphabet[secureRandInt(alphabet.length)]);]
    with [n] the number of iterations left. *)
Fixpoint fill_loop (fuel : nat) (s : entropy) (alpha : string) (n : nat)
    (acc : list (option ascii)) : M (list (option ascii)) :=
  match n with
  | O => ret acc
  | S n' =>
      let* k := secureRandInt fuel s (Z.of_nat (String.length alpha)) in
      fill_loop fuel s alpha n' (acc ++ [str_at alpha k])
  end.

(** What the call leaves on the page: a status message and nothing else, or
    the password in the display, with the alphabet size handed to the
    strength meter. *)
Inductive generation : Type :=
| Rejected (status : string)
| Generated (password : string) (alphabetSize : nat).

Definition generatePassword (fuel : nat) (s : entropy) (c : Config)
  : M generation :=
  if (length (activePools c) =? 0)%nat then
    ret (Rejected "Select at least one character type!")
  else if (length (filteredPools c) =? 0)%nat then
    ret (Rejected "No characters remain after ambiguity filter!")
  else
    let* seeded :=
      (if guarantee c then seed_loop fuel s (filteredPools c) [] else ret []) in
    let remaining := cfg_length c - Z.of_nat (length seeded) in
    let* chars := fill_loop fuel s (alphabet c) (Z.to_nat remaining) seeded in
    let* shuffled := secureShuffle fuel s chars in
    ret (Generated (join shuffled) (String.length (alphabet c))).

(** ** Vocabulary of the statements *)

(** The characters of a string. *)
Definition chars_of (str : string) : list ascii :=
  String.list_ascii_of_string str.

(** An array element that is a character of [str] (and not [undefined]). *)
Definition drawn_from (str : string) (x : option ascii) : Prop :=
  ∃ ch, x = Some ch ∧ ch ∈ chars_of str.

(** A configuration the generator accepts: some pool is enabled, some pool
    is left after the ambiguity filter, and with the guarantee switched on
    the length leaves room for one character per remaining pool. *)
Definition valid (c : Config) : Prop :=
  activePools c ≠ [] ∧ filteredPools c ≠ [] ∧
  (guarantee c = true → Z.of_nat (length (filteredPools c)) ≤ cfg_length c).

(** Two settings of the form: every box ticked, twelve characters; and
    four pools with the guarantee on but a length of two. *)
Definition all_boxes : Config :=
  {| cfg_length := 12; useUpper := true; useLower := true; useDigits := true;
     useSymbols := true; noAmbig := true; guarantee := true |}.

Definition too_short : Config :=
  {| cfg_length := 2; useUpper := true; useLower := true; useDigits := true;
     useSymbols := true; noAmbig := false; guarantee := true |}.

(** ** Streams on which rejection sampling cannot starve *)

(** Whenever the sampler has computed its mask for a positive bound, some
    later word passes the acceptance test.  A stream of independent
    uniform words has this property with probability one; the all-zero
    stream has it trivially. *)
Definition fair (s : entropy) : Prop :=
  ∀ (fuel : nat) (max mask : Z) (pos : nat),
    0 < max → mask_loop fuel 1 max = Some mask →
    ∃ n : nat, Int32.and (Int32.to_uint32 (s (pos + n)%nat)) mask < max.

Definition zeros : entropy := fun _ => 0.

(** A stream whose first word is odd and whose other words are zero. *)
Definition odd_then_zeros : entropy :=
  fun n => match n with O => 1 | S _ => 0 end.

(** A stream that starts at the largest word and steps down by three. *)
Definition descending : entropy := fun n => 4294967295 - 3 * Z.of_nat n.

(** ** Masks *)

Definition all_ones (m : Z) : Prop := ∃ k, 0 ≤ k ∧ m = 2^k - 1.

(** [m] is the smallest integer of the form [2^k - 1] that is at least
    [bound]. *)
Definition smallest_all_ones_geq (bound m : Z) : Prop :=
  all_ones m ∧ bound ≤ m ∧ ∀ m', all_ones m' → bound ≤ m' → m ≤ m'.

(** ** The rest of the page script *)

(** The checkbox that enables a pool. *)
Definition enabled (c : Config) (k : pool_key) : bool :=
  match k with
  | upper => useUpper c
  | lower => useLower c
  | digits => useDigits c
  | symbols => useSymbols c
  end.

(** A template literal's [${n}] for an integer-valued number (below 10^21 in
    magnitude, where JavaScript still prints plain decimal digits). *)
Definition show (n : Z) : string := NilZero.string_of_int (Z.to_int n).

(** The [let label, color, pct; if ... else ...] chain of updateStrength. *)
Record rating : Type := { label : string; color : string; pct : Z }.

Definition rate (entropy : Z) : rating :=
  if entropy <? 40 then {| label := "Weak"; color := "#cc0000"; pct := 15 |}
  else if entropy <? 60 then
    {| label := "Fair"; color := "#cc6600"; pct := 35 |}
  else if entropy <? 80 then
    {| label := "Good"; color := "#ccaa00"; pct := 55 |}
  else if entropy <? 100 then
    {| label := "Strong"; color := "#008800"; pct := 75 |}
  else if entropy <? 128 then
    {| label := "Very Strong"; color := "#006600"; pct := 88 |}
  else {| label := "Uncrackable"; color := "#000080"; pct := 100 |}.

(** What the script keeps and shows: the [history] array and the contents of
    the elements it writes to. *)
Record page : Type := {
  passwordDisplay : string;   (* #passwordDisplay.textContent *)
  entropyText : string;       (* #entropyText.textContent *)
  strengthBar_width : string; (* #strengthBar.style.width *)
  strengthBar_background : string;
  strengthText : string;      (* #strengthText.textContent *)
  statusPane : string;        (* #statusPane.textContent *)
  history : list string;      (* const history = [] *)
  historyBox : string         (* #historyBox.innerHTML *)
}.

Definition setStatus (msg : string) (pg : page) : page :=
  {| passwordDisplay := passwordDisplay pg;
     entropyText := entropyText pg;
     strengthBar_width := strengthBar_width pg;
     strengthBar_background := strengthBar_background pg;
     strengthText := strengthText pg;
     statusPane := msg;
     history := history pg;
     historyBox := historyBox pg |}.

(** [p.replace(/'/g, "\\'")]: a backslash before every single quote. *)
Fixpoint escapeQuotes (p : string) : string :=
  match p with
  | EmptyString => EmptyString
  | String ch rest =>
      if Ascii.eqb ch "'" then String "\" (String "'" (escapeQuotes rest))
      else String ch (escapeQuotes rest)
  end.

(** One entry of the history box. *)
Definition historyItem (p : string) : string :=
  let dq := String "034" EmptyString in
  "<div class=" +:+ dq +:+ "history-item" +:+ dq +:+ " onclick=" +:+ dq +:+
  "navigator.clipboard.writeText('" +:+ escapeQuotes p +:+
  "');setStatus('Copied from history')" +:+ dq +:+ ">" +:+ p +:+ "</div>".

(** [history.map(...).join("")] *)
Definition historyMarkup (h : list string) : string :=
  String.concat "" (map historyItem h).

Definition renderHistory (pg : page) : page :=
  {| passwordDisplay := passwordDisplay pg;
     entropyText := entropyText pg;
     strengthBar_width := strengthBar_width pg;
     strengthBar_background := strengthBar_background pg;
     strengthText := strengthText pg;
     statusPane := statusPane pg;
     history := history pg;
     historyBox := historyMarkup (history pg) |}.

(** The array after [history.unshift(pw); if (history.length > 10)
    history.pop();]. *)
Definition pushHistory (pw : string) (h : list string) : list string :=
  let h' := pw :: h in
  if (10 <? length h')%nat then removelast h' else h'.

Definition addHistory (pw : string) (pg : page) : page :=
  renderHistory
    {| passwordDisplay := passwordDisplay pg;
       entropyText := entropyText pg;
       strengthBar_width := strengthBar_width pg;
       strengthBar_background := strengthBar_background pg;
       strengthText := strengthText pg;
       statusPane := statusPane pg;
       history := pushHistory pw (history pg);
       historyBox := historyBox pg |}.

(** [history.length = 0; renderHistory(); setStatus("History cleared");] *)
Definition clearHistory (pg : page) : page :=
  setStatus "History cleared"
    (renderHistory
       {| passwordDisplay := passwordDisplay pg;
          entropyText := entropyText pg;
          strengthBar_width := strengthBar_width pg;
          strengthBar_background := strengthBar_background pg;
          strengthText := strengthText pg;
          statusPane := statusPane pg;
          history := [];
          historyBox := historyBox pg |}).

(** copyPassword, up to the call of [navigator.clipboard.writeText]: the
    text handed to the clipboard, or [None] when the guard returns first.
    What follows the write (the notice, the status line) happens later,
    when the clipboard promise resolves, and is not part of this model. *)
Definition copyPassword (pg : page) : option string :=
  let pw := passwordDisplay pg in
  if (String.length pw =? 0)%nat || String.prefix "Click" pw then None
  else Some pw.

Section Meter.

(** [Math.round(length * Math.log2(alphabetSize))] is computed by the
    platform in floating point; it is a parameter here, taken on the
    password length and the alphabet size, with an integer result. *)
Variable roundedBits : nat → nat → Z.

Definition calcEntropy (password : string) (alphabetSize : nat) : Z :=
  roundedBits (String.length password) alphabetSize.

Definition updateStrength (password : string) (alphabetSize : nat)
    (pg : page) : page :=
  let entropy := calcEntropy password alphabetSize in
  let r := rate entropy in
  {| passwordDisplay := passwordDisplay pg;
     entropyText := "Entropy: ~" +:+ show entropy +:+ " bits";
     strengthBar_width := show (pct r) +:+ "%";
     strengthBar_background := color r;
     strengthText := label r;
     statusPane := statusPane pg;
     history := history pg;
     historyBox := historyBox pg |}.

(** What generatePassword does to the page once the characters are drawn:
    a status message alone, or the display, the meter, the history and the
    closing status line. *)
Definition display (c : Config) (g : generation) (pg : page) : page :=
  match g with
  | Rejected msg => setStatus msg pg
  | Generated password alphabetSize =>
      let pg1 :=
        {| passwordDisplay := password;
           entropyText := entropyText pg;
           strengthBar_width := strengthBar_width pg;
           strengthBar_background := strengthBar_background pg;
           strengthText := strengthText pg;
           statusPane := statusPane pg;
           history := history pg;
           historyBox := historyBox pg |} in
      let pg2 := updateStrength password alphabetSize pg1 in
      let pg3 := addHistory password pg2 in
      setStatus
        ("Generated " +:+ show (cfg_length c) +:+ "-char password using " +:+
         show (Z.of_nat (length (filteredPools c))) +:+ " character pool(s)")
        pg3
  end.

(** generatePassword as the button runs it, on the page. *)
Definition generatePassword_on (fuel : nat) (s : entropy) (c : Config)
    (pg : page) : M page :=
  let* g := generatePassword fuel s c in
  ret (display c g pg).

End Meter.

(** The buttons of the page. *)
Inductive action : Type :=
| Generate (c : Config)
| ClearHistory.

Definition perform (roundedBits : nat → nat → Z) (fuel : nat) (s : entropy)
    (a : action) (pg : page) : M page :=
  match a with
  | Generate c => generatePassword_on roundedBits fuel s c pg
  | ClearHistory => ret (clearHistory pg)
  end.

(** The button presses of a session, in order. *)
Fixpoint session (roundedBits : nat → nat → Z) (fuel : nat) (s : entropy)
    (acts : list action) (pg : page) : M page :=
  match acts with
  | [] => ret pg
  | a :: rest =>
      let* pg' := perform roundedBits fuel s a pg in
      session roundedBits fuel s rest pg'
  end.

(** A page on which nothing has been written yet. *)
Definition blank_page : page :=
  {| passwordDisplay := ""; entropyText := ""; strengthBar_width := "";
     strengthBar_background := ""; strengthText := ""; statusPane := "";
     history := []; historyBox := "" |}.

(** The history holds at most ten passwords and the history box shows
    exactly them. *)
Definition history_in_step (pg : page) : Prop :=
  (length (history pg) ≤ 10)%nat ∧ historyBox pg = historyMarkup (history pg).

(** ** More streams *)

(** The stream that delivers the listed words, then zeros. *)
Definition scripted (ws : list Z) : entropy := fun n => nth n ws 0.

(** A source stuck at the largest word. *)
Definition saturated : entropy := fun _ => 4294967295.

(** Upper and lower case only, twelve characters, no filter, no guarantee. *)
Definition letters_only : Config :=
  {| cfg_length := 12; useUpper := true; useLower := true; useDigits := false;
     useSymbols := false; noAmbig := false; guarantee := false |}.

(** A short session on the all-zero stream, with a meter that always reads
    zero bits, and the page it ends on. *)
Definition demo_actions : list action :=
  [Generate all_boxes; ClearHistory; Generate too_short;
   Generate letters_only].

Definition demo_end : page :=
  Eval vm_compute in
    match session (fun _ _ => 0) 32 (fun _ => 0) demo_actions blank_page 0%nat
    with
    | Ok pg _ => pg
    | _ => blank_page
    end.

(** The page after one Generate press on a blank page: with [too_short] on
    the all-zero stream, and with [all_boxes] on the descending stream. *)
Definition shown_short : page :=
  Eval vm_compute in
    match generatePassword_on (fun _ _ => 0) 32 (fun _ => 0) too_short
            blank_page 0%nat with
    | Ok pg _ => pg
    | _ => blank_page
    end.

Definition shown_all_boxes : page :=
  Eval vm_compute in
    match generatePassword_on (fun _ _ => 0) 32
            (fun n => 4294967295 - 3 * Z.of_nat n) all_boxes blank_page 0%nat
    with
    | Ok pg _ => pg
    | _ => blank_page
    end.

(** * The code run on concrete inputs *)

Example mask_for_90 : mask_loop 32 1 90 = Some 127.
Proof. reflexivity. Qed.

Example mask_for_64 : mask_loop 32 1 64 = Some 127.
Proof. reflexivity. Qed.

Example mask_for_largest : mask_loop 32 1 (2^31 - 1) = Some (2^31 - 1).
Proof. reflexivity. Qed.

Example mask_past_largest : mask_loop 1000 1 (2^31) = None.
Proof. reflexivity. Qed.

(** For max = 10 the mask is 15: the masked words 15 and 12 are rejected,
    9 is returned, three words are read. *)
Example sample_10 : secureRandInt 32 descending 10 0%nat = Ok 9 3%nat.
Proof. reflexivity. Qed.

Example sample_26 : secureRandInt 32 descending 26 0%nat = Ok 25 3%nat.
Proof. reflexivity. Qed.

Example sample_0 :
  secureRandInt 32 descending 0 0%nat = Throw (RangeError "max must be > 0").
Proof. reflexivity. Qed.

Example shuffle_zeros :
  secureShuffle 32 zeros [Some 1; Some 2; Some 3; Some 4] 0%nat
  = Ok [Some 2; Some 3; Some 4; Some 1] 3%nat.
Proof. reflexivity. Qed.

(** j = 1, then j = 2, then j = 0, after three rejected words in all. *)
Example shuffle_descending :
  secureShuffle 32 descending [Some 1; Some 2; Some 3; Some 4] 0%nat
  = Ok [Some 4; Some 1; Some 3; Some 2] 6%nat.
Proof. reflexivity. Qed.

Example generate_all_boxes_descending :
  generatePassword 32 descending all_boxes 0%nat
  = Ok (Generated ",^X-_(9>[r~}" 80) 39%nat.
Proof. reflexivity. Qed.

Example generate_all_boxes_zeros :
  generatePassword 32 zeros all_boxes 0%nat
  = Ok (Generated "a2!AAAAAAAAA" 80) 23%nat.
Proof. reflexivity. Qed.

Example generate_nothing_selected :
  generatePassword 32 zeros
    {| cfg_length := 12; useUpper := false; useLower := false;
       useDigits := false; useSymbols := false; noAmbig := false;
       guarantee := true |} 0%nat
  = Ok (Rejected "Select at least one character type!") 0%nat.
Proof. reflexivity. Qed.

(** * Facts about the 32-bit operators *)

Module Int32Facts.
Import Int32.

Lemma to_int32_range z : -2^31 ≤ to_int32 z < 2^31.
Proof.
  unfold to_int32.
  pose proof (Z.mod_pos_bound (z + 2^31) (2^32) ltac:(lia)). lia.
Qed.

Lemma to_int32_small z : -2^31 ≤ z < 2^31 → to_int32 z = z.
Proof.
  intros Hz. unfold to_int32. rewrite Z.mod_small; lia.
Qed.

Lemma land_le_r a b : 0 ≤ b → 0 ≤ Z.land a b ≤ b.
Proof.
  intros Hb. split.
  - apply Z.land_nonneg. by right.
  - pose proof (Z.sub_land_same_l b a) as E.
    assert (0 ≤ Z.land b (Z.lnot a)) by (apply Z.land_nonneg; by left).
    rewrite (Z.land_comm a b). lia.
Qed.

Lemma and_bounds w mask :
  0 ≤ mask < 2^31 → 0 ≤ and w mask ≤ mask.
Proof.
  intros Hm. unfold and. rewrite (to_int32_small mask) by lia.
  pose proof (land_le_r (to_int32 w) mask ltac:(lia)).
  rewrite to_int32_small; lia.
Qed.

Lemma lor_even_1 a : Z.lor (2 * a) 1 = 2 * a + 1.
Proof.
  pose proof (Z.add_lor_land (2 * a) 1) as E.
  assert (Z.land (2 * a) 1 = 0) as E0.
  { change 1 with (Z.ones 1). rewrite Z.land_ones by lia.
    change (2 ^ 1) with 2. rewrite Z.mul_comm. apply Z.mod_mul. lia. }
  lia.
Qed.

Lemma shl_1 a : -2^30 ≤ a < 2^30 → shl a 1 = 2 * a.
Proof.
  intros Ha. unfold shl.
  change (Z.land (to_uint32 1) 31) with 1.
  rewrite (to_int32_small a) by lia.
  rewrite Z.shiftl_mul_pow2 by lia. change (2 ^ 1) with 2.
  rewrite to_int32_small; lia.
Qed.

(** One turn of the mask loop on [k] ones gives [k + 1] ones, as long as
    the sign bit is not reached. *)
Lemma grow_mask k :
  0 ≤ k ≤ 30 → or (shl (2^k - 1) 1) 1 = 2^(k + 1) - 1.
Proof.
  intros Hk.
  assert (0 < 2^k ≤ 2^30) as Hp.
  { split; [apply Z.pow_pos_nonneg; lia | apply Z.pow_le_mono_r; lia]. }
  rewrite shl_1 by lia. unfold or.
  rewrite (to_int32_small 1) by lia.
  rewrite (to_int32_small (2 * (2^k - 1))) by lia.
  rewrite lor_even_1, Z.pow_add_r by lia. change (2 ^ 1) with 2.
  rewrite to_int32_small; lia.
Qed.

(** At 31 ones the shift reaches the sign bit: the mask becomes [-1] and
    stays there. *)
Lemma grow_mask_sign : or (shl (2^31 - 1) 1) 1 = -1.
Proof. reflexivity. Qed.

Lemma grow_mask_stuck : or (shl (-1) 1) 1 = -1.
Proof. reflexivity. Qed.

End Int32Facts.

(** * The sampler *)

Section Sampler.
Import Int32 Int32Facts.

(** ** The mask loop *)

Lemma mask_loop_mono fuel fuel' mask max m :
  mask_loop fuel mask max = Some m → (fuel ≤ fuel')%nat →
  mask_loop fuel' mask max = Some m.
Proof.
  revert fuel' mask. induction fuel as [|fuel IH]; intros fuel' mask H Hle.
  - discriminate.
  - destruct fuel' as [|fuel']; [lia|]. simpl in *.
    destruct (mask <? max); [apply IH; [done | lia] | done].
Qed.

(** The loop leaves only when the mask has reached [max], and a mask is
    always a 32-bit integer. *)
Lemma mask_loop_exit fuel mask max m :
  mask_loop fuel mask max = Some m → -2^31 ≤ mask < 2^31 →
  max ≤ m < 2^31.
Proof.
  revert mask. induction fuel as [|fuel IH]; intros mask H Hr; [done|].
  simpl in H. destruct (Z.ltb_spec mask max).
  - apply IH in H; [done|]. unfold or. apply to_int32_range.
  - injection H as <-. lia.
Qed.

(** From [k] ones, with the previous mask still below [max], the loop
    stops at [log2 max + 1] ones. *)
Lemma mask_loop_from fuel k max :
  1 ≤ k → 2^(k - 1) ≤ max < 2^31 →
  (Z.to_nat (Z.log2 max + 1 - k) < fuel)%nat →
  mask_loop fuel (2^k - 1) max = Some (2^(Z.log2 max + 1) - 1).
Proof.
  revert k. induction fuel as [|fuel IH]; intros k Hk Hmax Hfuel; [lia|].
  assert (0 < 2^(k - 1)) by (apply Z.pow_pos_nonneg; lia).
  assert (2^k = 2 * 2^(k - 1)) as Ek.
  { replace k with (Z.succ (k - 1)) at 1 by lia. apply Z.pow_succ_r. lia. }
  simpl. destruct (Z.ltb_spec (2^k - 1) max) as [Hlt|Hge].
  - assert (k ≤ Z.log2 max) by (apply Z.log2_le_pow2; lia).
    assert (Z.log2 max < 31) by (apply Z.log2_lt_pow2; lia).
    rewrite grow_mask by lia. apply IH; [lia | | lia].
    replace (k + 1 - 1) with k by lia. lia.
  - assert (Z.log2 max = k - 1) as ->.
    { apply Z.log2_unique; [lia|]. replace (Z.succ (k - 1)) with k by lia. lia. }
    by replace (k - 1 + 1) with k by lia.
Qed.

Lemma mask_loop_value fuel max :
  0 < max < 2^31 → (32 ≤ fuel)%nat →
  mask_loop fuel 1 max = Some (2^(Z.log2 max + 1) - 1).
Proof.
  intros Hmax Hfuel.
  assert (Z.log2 max < 31) by (apply Z.log2_lt_pow2; lia).
  pose proof (Z.log2_nonneg max).
  apply (mask_loop_from fuel 1 max); [lia | simpl; lia | lia].
Qed.

(** Past [2^31 - 1] the mask turns into [-1], which is below every
    positive [max]: the loop never leaves. *)
Lemma mask_loop_stuck fuel max : 0 < max → mask_loop fuel (-1) max = None.
Proof.
  intros Hmax. induction fuel as [|fuel IH]; [done|].
  simpl. destruct (Z.ltb_spec (-1) max); [|lia].
  by rewrite grow_mask_stuck.
Qed.

Lemma mask_loop_diverges_from fuel k max :
  0 ≤ k ≤ 31 → 2^31 ≤ max → mask_loop fuel (2^k - 1) max = None.
Proof.
  revert k. induction fuel as [|fuel IH]; intros k Hk Hmax; [done|].
  assert (2^k ≤ 2^31) by (apply Z.pow_le_mono_r; lia).
  simpl. destruct (Z.ltb_spec (2^k - 1) max); [|lia].
  destruct (decide (k = 31)) as [->|].
  - rewrite grow_mask_sign. apply mask_loop_stuck. lia.
  - rewrite grow_mask by lia. apply IH; lia.
Qed.

Lemma smallest_all_ones_log2 max :
  0 < max → smallest_all_ones_geq max (2^(Z.log2 max + 1) - 1).
Proof.
  intros Hmax. pose proof (Z.log2_nonneg max).
  pose proof (Z.log2_spec max Hmax) as [Hlo Hhi].
  replace (Z.succ (Z.log2 max)) with (Z.log2 max + 1) in Hhi by lia.
  split; [|split].
  - exists (Z.log2 max + 1). split; [lia | done].
  - lia.
  - intros m' (k & Hk & ->) Hge.
    assert (Z.log2 max < k) by (apply Z.log2_lt_pow2; lia).
    assert (2^(Z.log2 max + 1) ≤ 2^k) by (apply Z.pow_le_mono_r; lia).
    lia.
Qed.

(** ** The acceptance loop *)

Lemma draw_loop_mono fuel fuel' s mask max pos v pos' :
  draw_loop fuel s mask max pos = Ok v pos' → (fuel ≤ fuel')%nat →
  draw_loop fuel' s mask max pos = Ok v pos'.
Proof.
  revert fuel' pos. induction fuel as [|fuel IH]; intros fuel' pos H Hle.
  - discriminate.
  - destruct fuel' as [|fuel']; [lia|].
    simpl in *. unfold bind, getRandomValues in *.
    destruct (_ >=? max); [apply IH; [done | lia] | done].
Qed.

(** A returned value was accepted by the loop test, and is the masked
    last word read; all words before it were rejected. *)
Lemma draw_loop_Ok fuel s mask max pos v pos' :
  draw_loop fuel s mask max pos = Ok v pos' →
  v < max ∧ (pos < pos')%nat ∧
  v = and (to_uint32 (s (pos' - 1)%nat)) mask ∧
  ∀ q, (pos ≤ q < pos' - 1)%nat → max ≤ and (to_uint32 (s q)) mask.
Proof.
  revert pos. induction fuel as [|fuel IH]; intros pos H; [done|].
  simpl in H. unfold bind, getRandomValues in H.
  destruct (Z.geb_spec (and (to_uint32 (s pos)) mask) max) as [Hge|Hlt].
  - apply IH in H as (? & ? & ? & Hrej). repeat split; [done | lia | done |].
    intros q Hq. destruct (decide (q = pos)) as [->|]; [lia|].
    apply Hrej. lia.
  - injection H as <- <-. repeat split; [lia | lia | | intros; lia].
    by replace (S pos - 1)%nat with pos by lia.
Qed.

(** If the word [n] places ahead is accepted, the loop returns with
    [n + 1] units of fuel. *)
Lemma draw_loop_reaches n s mask max pos :
  and (to_uint32 (s (pos + n)%nat)) mask < max →
  ∃ v pos', ∀ fuel, (n < fuel)%nat →
    draw_loop fuel s mask max pos = Ok v pos'.
Proof.
  revert pos. induction n as [|n IH]; intros pos Hacc.
  - replace (pos + 0)%nat with pos in Hacc by lia.
    exists (and (to_uint32 (s pos)) mask), (S pos).
    intros [|fuel] Hf; [lia|]. simpl. unfold bind, getRandomValues.
    destruct (Z.geb_spec (and (to_uint32 (s pos)) mask) max); [lia | done].
  - destruct (Z.geb_spec (and (to_uint32 (s pos)) mask) max) as [Hge|Hlt].
    + replace (pos + S n)%nat with (S pos + n)%nat in Hacc by lia.
      destruct (IH _ Hacc) as (v & pos' & Hrun). exists v, pos'.
      intros [|fuel] Hf; [lia|]. simpl. unfold bind, getRandomValues.
      destruct (Z.geb_spec (and (to_uint32 (s pos)) mask) max); [|lia].
      apply Hrun. lia.
    + exists (and (to_uint32 (s pos)) mask), (S pos).
      intros [|fuel] Hf; [lia|]. simpl. unfold bind, getRandomValues.
      destruct (Z.geb_spec (and (to_uint32 (s pos)) mask) max); [lia | done].
Qed.

(** If the word [n] places ahead is the first accepted one, the loop
    returns its masked value and stops right after it. *)
Lemma draw_loop_first n s mask max pos :
  and (to_uint32 (s (pos + n)%nat)) mask < max →
  (∀ q, (pos ≤ q < pos + n)%nat → max ≤ and (to_uint32 (s q)) mask) →
  ∀ fuel, (n < fuel)%nat →
    draw_loop fuel s mask max pos
    = Ok (and (to_uint32 (s (pos + n)%nat)) mask) (S (pos + n)).
Proof.
  revert pos. induction n as [|n IH]; intros pos Hacc Hrej [|fuel] Hf;
    try lia; simpl; unfold bind, getRandomValues.
  - replace (pos + 0)%nat with pos in * by lia.
    by destruct (Z.geb_spec (and (to_uint32 (s pos)) mask) max); [lia|].
  - pose proof (Hrej pos ltac:(lia)).
    destruct (Z.geb_spec (and (to_uint32 (s pos)) mask) max); [|lia].
    replace (pos + S n)%nat with (S pos + n)%nat in * by lia.
    apply IH; [done | intros q Hq; apply Hrej; lia | lia].
Qed.

(** ** secureRandInt *)

Lemma secureRandInt_mono fuel fuel' s max pos v pos' :
  secureRandInt fuel s max pos = Ok v pos' → (fuel ≤ fuel')%nat →
  secureRandInt fuel' s max pos = Ok v pos'.
Proof.
  unfold secureRandInt. intros H Hle.
  destruct (max <=? 0); [done|].
  destruct (mask_loop fuel 1 max) as [mask|] eqn:Hm; [|done].
  rewrite (mask_loop_mono _ _ _ _ _ Hm Hle).
  by apply (draw_loop_mono fuel).
Qed.

Lemma secureRandInt_Ok fuel s max pos v pos' :
  secureRandInt fuel s max pos = Ok v pos' →
  0 < max ∧ 0 ≤ v < max ∧ (pos < pos')%nat.
Proof.
  unfold secureRandInt. intros H.
  destruct (Z.leb_spec max 0); [done|].
  destruct (mask_loop fuel 1 max) as [mask|] eqn:Hm; [|done].
  apply mask_loop_exit in Hm; [|lia].
  apply draw_loop_Ok in H as (? & ? & -> & _).
  pose proof (and_bounds (to_uint32 (s (pos' - 1)%nat)) mask ltac:(lia)).
  lia.
Qed.

Lemma secureRandInt_returns s max pos :
  fair s → 0 < max < 2^31 →
  ∃ v pos' N, ∀ fuel, (N ≤ fuel)%nat →
    secureRandInt fuel s max pos = Ok v pos'.
Proof.
  intros Hfair Hmax.
  destruct (Hfair 32%nat max _ pos ltac:(lia)
              (mask_loop_value 32 max Hmax ltac:(lia))) as [n Hn].
  destruct (draw_loop_reaches _ _ _ _ _ Hn) as (v & pos' & Hrun).
  exists v, pos', (32 + S n)%nat. intros fuel Hf.
  unfold secureRandInt. destruct (Z.leb_spec max 0); [lia|].
  rewrite mask_loop_value by lia. apply Hrun. lia.
Qed.

End Sampler.

Lemma fair_zeros : fair zeros.
Proof. intros fuel max mask pos Hmax _. exists 0%nat. apply Hmax. Qed.

(** C5. For every max in [1, 2^31), every value returned by
    secureRandInt(max) lies in [0, max): none is negative, none reaches
    max.  On a fair entropy stream the call does return such a value. *)
Theorem secureRandInt_in_range (s : entropy) (max : Z) :
  1 ≤ max < 2^31 →
  (∀ fuel pos v pos',
     secureRandInt fuel s max pos = Ok v pos' → 0 ≤ v < max) ∧
  (fair s → ∀ pos, ∃ fuel v pos',
     secureRandInt fuel s max pos = Ok v pos' ∧ 0 ≤ v < max).
Proof.
  intros Hmax. split.
  - intros fuel pos v pos' H. by apply secureRandInt_Ok in H as (_ & ? & _).
  - intros Hfair pos.
    destruct (secureRandInt_returns s max pos Hfair ltac:(lia))
      as (v & pos' & N & Hrun).
    exists N, v, pos'. split; [by apply Hrun|].
    specialize (Hrun N ltac:(lia)).
    by apply secureRandInt_Ok in Hrun as (_ & ? & _).
Qed.

Lemma secureRandInt_in_range_witness :
  1 ≤ 7 < 2^31 ∧ fair zeros ∧
  ∃ fuel v pos', secureRandInt fuel zeros 7 0%nat = Ok v pos' ∧ 0 ≤ v < 7.
Proof.
  split; [lia|]. split; [exact fair_zeros|].
  exact (proj2 (secureRandInt_in_range zeros 7 ltac:(lia)) fair_zeros 0%nat).
Defined.

(** C6, as the spec words it, fails at max = 2: the loop yields the mask 3,
    while 1 = 2^1 - 1 already covers max - 1 = 1. *)
Lemma mask_not_smallest_cover_of_pred :
  mask_loop 32 1 2 = Some 3 ∧ ¬ smallest_all_ones_geq (2 - 1) 3.
Proof.
  split; [reflexivity|]. intros (_ & _ & Hmin).
  assert (all_ones 1) as H1 by (exists 1; split; [lia | reflexivity]).
  specialize (Hmin 1 H1). lia.
Qed.

(** C6, amended. For every max in [1, 2^31) the mask computed before the
    acceptance loop is the smallest integer of the form 2^k - 1 that is at
    least max (not max - 1), namely 2^(log2 max + 1) - 1; from max = 2^31
    on, the mask loop never leaves and no mask is computed. *)
Theorem mask_loop_smallest_cover (max : Z) :
  (0 < max < 2^31 →
     ∃ m, (∀ fuel, (32 ≤ fuel)%nat → mask_loop fuel 1 max = Some m) ∧
          (∀ fuel m', mask_loop fuel 1 max = Some m' → m' = m) ∧
          m = 2^(Z.log2 max + 1) - 1 ∧
          smallest_all_ones_geq max m) ∧
  (2^31 ≤ max → ∀ fuel, mask_loop fuel 1 max = None).
Proof.
  split.
  - intros Hmax. exists (2^(Z.log2 max + 1) - 1). repeat split.
    + intros fuel Hf. by apply mask_loop_value.
    + intros fuel m' H.
      apply (mask_loop_mono _ (fuel + 32)%nat) in H; [|lia].
      rewrite mask_loop_value in H by lia. by injection H.
    + apply smallest_all_ones_log2; lia.
    + apply smallest_all_ones_log2; lia.
    + apply smallest_all_ones_log2; lia.
  - intros Hmax fuel. apply (mask_loop_diverges_from fuel 1 max); lia.
Qed.

Lemma mask_loop_smallest_cover_witness :
  (0 < 2 < 2^31 ∧
   ∃ m, (∀ fuel, (32 ≤ fuel)%nat → mask_loop fuel 1 2 = Some m) ∧
        (∀ fuel m', mask_loop fuel 1 2 = Some m' → m' = m) ∧
        m = 2^(Z.log2 2 + 1) - 1 ∧
        smallest_all_ones_geq 2 m) ∧
  (2^31 ≤ 2^31 ∧ ∀ fuel, mask_loop fuel 1 (2^31) = None).
Proof.
  split.
  - split; [lia|]. apply (proj1 (mask_loop_smallest_cover 2)). lia.
  - split; [lia|]. apply (proj2 (mask_loop_smallest_cover (2^31))). lia.
Defined.

(** ** The sampler at max = 1 *)

Section SamplerAtOne.
Import Int32 Int32Facts.

Lemma mod2_shift a t : (a + 2 * t) mod 2 = a mod 2.
Proof. rewrite (Z.mul_comm 2 t). apply Z.mod_add. lia. Qed.

(** Masking a stored word with 1 leaves its lowest bit. *)
Lemma and_1 x : and (to_uint32 x) 1 = x mod 2.
Proof.
  unfold and. rewrite (to_int32_small 1) by lia.
  change 1 with (Z.ones 1) at 1. rewrite Z.land_ones by lia.
  change (2 ^ 1) with 2.
  pose proof (Z.mod_pos_bound (to_int32 (to_uint32 x)) 2 ltac:(lia)).
  rewrite to_int32_small by lia.
  unfold to_int32, to_uint32.
  rewrite (Z.mod_eq (x mod 2^32 + 2^31) (2^32)) by lia.
  rewrite (Z.mod_eq x (2^32)) by lia.
  set (q := x / 2^32). set (r := (x - 2^32 * q + 2^31) / 2^32).
  replace (x - 2^32 * q + 2^31 - 2^32 * r - 2^31)
    with (x + 2 * (- 2^31 * q - 2^31 * r)) by lia.
  apply mod2_shift.
Qed.

Lemma and_1_even x : Z.even x = true → and (to_uint32 x) 1 = 0.
Proof. intros E. rewrite and_1, Zmod_even. by rewrite E. Qed.

Lemma and_1_odd x : Z.odd x = true → and (to_uint32 x) 1 = 1.
Proof. intros E. rewrite and_1, Zmod_odd. by rewrite E. Qed.

Lemma mask_loop_one fuel m : mask_loop fuel 1 1 = Some m → m = 1.
Proof. destruct fuel; [done|]. simpl. by intros [= <-]. Qed.

End SamplerAtOne.

(** C7, as the spec words it, fails on a stream that starts with an odd
    word: with max = 1 the mask is 1, the first masked draw is 1 and is
    rejected, and two words are consumed before 0 is returned. *)
Lemma secureRandInt_one_redraws :
  Int32.and (Int32.to_uint32 (odd_then_zeros 0%nat)) 1 = 1 ∧
  secureRandInt 32 odd_then_zeros 1 0%nat = Ok 0 2%nat.
Proof. split; reflexivity. Qed.

(** C7, amended. secureRandInt(1) returns only 0.  Its mask is 1, so a draw
    is accepted exactly when the word read is even: the call consumes one
    word when the first word is even; when the first word is odd the draw
    is rejected and the loop redraws, and it returns 0 after consuming
    every odd word up to and including the first even one. *)
Theorem secureRandInt_one (s : entropy) (pos : nat) :
  (∀ fuel v pos', secureRandInt fuel s 1 pos = Ok v pos' →
     v = 0 ∧ (pos < pos')%nat ∧ Z.even (s (pos' - 1)%nat) = true ∧
     ∀ q, (pos ≤ q < pos' - 1)%nat → Z.odd (s q) = true) ∧
  (Z.even (s pos) = true → ∀ fuel, (0 < fuel)%nat →
     secureRandInt fuel s 1 pos = Ok 0 (S pos)) ∧
  (Z.odd (s pos) = true → ∀ fuel v,
     secureRandInt fuel s 1 pos ≠ Ok v (S pos)) ∧
  (∀ n, Z.even (s (pos + n)%nat) = true →
     (∀ q, (pos ≤ q < pos + n)%nat → Z.odd (s q) = true) →
     ∀ fuel, (n < fuel)%nat →
       secureRandInt fuel s 1 pos = Ok 0 (S (pos + n))).
Proof.
  split; [|split; [|split]].
  - intros fuel v pos' H. unfold secureRandInt in H. simpl in H.
    destruct (mask_loop fuel 1 1) as [m|] eqn:Hm; [|done].
    apply mask_loop_one in Hm as ->.
    apply draw_loop_Ok in H as (Hv & Hpos & Ev & Hrej).
    rewrite and_1 in Ev.
    pose proof (Z.mod_pos_bound (s (pos' - 1)%nat) 2 ltac:(lia)).
    repeat split; [lia | done | |].
    + rewrite Zmod_even in Ev. destruct (Z.even _); [done | lia].
    + intros q Hq. specialize (Hrej q Hq). rewrite and_1, Zmod_odd in Hrej.
      destruct (Z.odd _); [done | lia].
  - intros E [|fuel] Hf; [lia|].
    unfold secureRandInt. simpl. unfold bind, getRandomValues.
    by rewrite (and_1_even _ E).
  - intros E fuel v H. unfold secureRandInt in H. simpl in H.
    destruct (mask_loop fuel 1 1) as [m|] eqn:Hm; [|done].
    apply mask_loop_one in Hm as ->.
    apply draw_loop_Ok in H as (Hv & _ & Ev & _).
    replace (S pos - 1)%nat with pos in Ev by lia.
    rewrite (and_1_odd _ E) in Ev. lia.
  - intros n Heven Hodd [|fuel] Hf; [lia|].
    unfold secureRandInt. change (1 <=? 0) with false.
    change (mask_loop (S fuel) 1 1) with (Some 1). cbv iota.
    rewrite (draw_loop_first n s 1 1 pos).
    + by rewrite (and_1_even _ Heven).
    + rewrite (and_1_even _ Heven). lia.
    + intros q Hq. rewrite (and_1_odd _ (Hodd q Hq)). lia.
    + lia.
Qed.

Lemma secureRandInt_one_witness :
  (Z.even (zeros 0%nat) = true ∧
   secureRandInt 1 zeros 1 0%nat = Ok 0 1%nat) ∧
  (Z.odd (odd_then_zeros 0%nat) = true ∧
   ∀ fuel v, secureRandInt fuel odd_then_zeros 1 0%nat ≠ Ok v 1%nat) ∧
  (Z.even (odd_then_zeros (0 + 1)%nat) = true ∧
   (∀ q, (0 ≤ q < 0 + 1)%nat → Z.odd (odd_then_zeros q) = true) ∧
   secureRandInt 2 odd_then_zeros 1 0%nat = Ok 0 (S (0 + 1))).
Proof.
  split; [|split].
  - split; [reflexivity|].
    apply (proj1 (proj2 (secureRandInt_one zeros 0%nat))); [reflexivity | lia].
  - split; [reflexivity|].
    apply (proj1 (proj2 (proj2 (secureRandInt_one odd_then_zeros 0%nat)))).
    reflexivity.
  - assert (∀ q, (0 ≤ q < 0 + 1)%nat → Z.odd (odd_then_zeros q) = true)
      as Hodd by (intros q Hq; by replace q with 0%nat by lia).
    split; [reflexivity|]. split; [exact Hodd|].
    apply (proj2 (proj2 (proj2 (secureRandInt_one odd_then_zeros 0%nat)))
             1%nat); [reflexivity | exact Hodd | lia].
Defined.

(** C8. For every max <= 0, secureRandInt(max) throws a RangeError to its
    caller: it returns no value, reads no random word, and does not clamp
    max into the valid range. *)
Theorem secureRandInt_rejects_nonpositive
    (fuel : nat) (s : entropy) (max : Z) (pos : nat) :
  max ≤ 0 →
  secureRandInt fuel s max pos = Throw (RangeError "max must be > 0").
Proof.
  intros Hmax. unfold secureRandInt. by destruct (Z.leb_spec max 0); [|lia].
Qed.

Lemma secureRandInt_rejects_nonpositive_witness :
  0 ≤ 0 ∧
  secureRandInt 32 zeros 0 0%nat = Throw (RangeError "max must be > 0").
Proof.
  split; [lia|]. apply (secureRandInt_rejects_nonpositive 32 zeros 0 0%nat). lia.
Defined.

(** * The shuffle *)

Section Shuffle.
Context {A : Type}.
Implicit Types (arr : list (option A)) (x y : option A) (i j : nat).

(** ** Reading and writing inside the array *)

Lemma arr_get_in arr i x :
  arr !! i = Some x → arr_get arr (Z.of_nat i) = x.
Proof.
  intros H. unfold arr_get. destruct (Z.ltb_spec (Z.of_nat i) 0); [lia|].
  by rewrite Nat2Z.id, H.
Qed.

Lemma arr_set_in arr i x :
  (i < length arr)%nat → arr_set arr (Z.of_nat i) x = <[i := x]> arr.
Proof.
  intros H. unfold arr_set. destruct (Z.ltb_spec (Z.of_nat i) 0); [lia|].
  rewrite Nat2Z.id. by destruct (decide _); [|lia].
Qed.

(** ** Exchanging two cells is a permutation *)

Lemma move_to_front arr j x y :
  arr !! j = Some y → x :: arr ≡ₚ y :: <[j := x]> arr.
Proof.
  revert j. induction arr as [|b arr IH]; intros [|j] H; simplify_eq/=.
  - apply perm_swap.
  - rewrite perm_swap, (IH _ H). apply perm_swap.
Qed.

Lemma exchange_Permutation arr i j x y :
  arr !! i = Some x → arr !! j = Some y →
  arr ≡ₚ <[j := x]> (<[i := y]> arr).
Proof.
  revert i j. induction arr as [|b arr IH]; intros [|i] [|j] Hi Hj;
    simplify_eq/=.
  - done.
  - by apply move_to_front.
  - by apply move_to_front.
  - f_equiv. by apply IH.
Qed.

(** One turn of the loop body, for [j <= i] inside the array. *)
Lemma exchange_in arr i (j : Z) :
  (i < length arr)%nat → 0 ≤ j < Z.of_nat i + 1 →
  let arr' := arr_set (arr_set arr (Z.of_nat i) (arr_get arr j)) j
                (arr_get arr (Z.of_nat i)) in
  arr ≡ₚ arr' ∧ length arr' = length arr.
Proof.
  intros Hi Hj.
  assert (∃ n, j = Z.of_nat n ∧ (n ≤ i)%nat) as (n & -> & Hn)
    by (exists (Z.to_nat j); lia).
  destruct (lookup_lt_is_Some_2 arr i Hi) as [x Hx].
  destruct (lookup_lt_is_Some_2 arr n ltac:(lia)) as [y Hy].
  rewrite (arr_get_in _ _ _ Hx), (arr_get_in _ _ _ Hy).
  rewrite (arr_set_in arr i) by done.
  rewrite arr_set_in by (rewrite length_insert; lia).
  simpl. split; [by apply exchange_Permutation|].
  by rewrite !length_insert.
Qed.

(** ** The loop *)

Lemma shuffle_loop_Permutation fuel s i arr pos arr' pos' :
  (i < length arr)%nat ∨ i = 0%nat →
  shuffle_loop fuel s i arr pos = Ok arr' pos' → arr ≡ₚ arr'.
Proof.
  revert arr pos. induction i as [|i IH]; intros arr pos Hi H.
  - by injection H as <- _.
  - simpl in H. unfold bind in H.
    destruct (secureRandInt fuel s _ pos) as [j pos1| |] eqn:Hj;
      [|done|done].
    apply secureRandInt_Ok in Hj as (_ & Hj & _).
    destruct (exchange_in arr (S i) j ltac:(lia) Hj) as [Hperm Hlen].
    rewrite Hperm. apply (IH _ pos1); [|done]. left. rewrite Hlen. lia.
Qed.

Lemma shuffle_loop_returns s i arr pos :
  fair s → (i < length arr)%nat ∨ i = 0%nat →
  Z.of_nat (length arr) < 2^31 →
  ∃ arr' pos' N, ∀ fuel, (N ≤ fuel)%nat →
    shuffle_loop fuel s i arr pos = Ok arr' pos'.
Proof.
  intros Hfair. revert arr pos.
  induction i as [|i IH]; intros arr pos Hi Hlen.
  - by exists arr, pos, 0%nat.
  - destruct (secureRandInt_returns s (Z.of_nat (S i) + 1) pos Hfair
                ltac:(lia)) as (j & pos1 & N1 & Hrun).
    pose proof (Hrun N1 ltac:(lia)) as Hj.
    apply secureRandInt_Ok in Hj as (_ & Hj & _).
    destruct (exchange_in arr (S i) j ltac:(lia) Hj) as [_ Hlen'].
    simpl in Hlen'.
    destruct (IH (arr_set (arr_set arr (Z.of_nat (S i)) (arr_get arr j)) j
                    (arr_get arr (Z.of_nat (S i)))) pos1)
      as (arr' & pos' & N2 & Hrest);
      [left; rewrite Hlen'; lia | by rewrite Hlen' |].
    exists arr', pos', (N1 `max` N2)%nat. intros fuel Hf.
    cbn [shuffle_loop]. unfold bind. rewrite Hrun by lia.
    apply Hrest. lia.
Qed.

End Shuffle.

Lemma secureShuffle_perm {A : Type} fuel s (arr : list (option A))
    pos arr' pos' :
  secureShuffle fuel s arr pos = Ok arr' pos' → arr ≡ₚ arr'.
Proof. unfold secureShuffle. apply shuffle_loop_Permutation. lia. Qed.

(** C10. Whatever the array and the entropy stream, the array that
    secureShuffle returns is a permutation of its input: the same elements
    with the same multiplicities, nothing added, dropped or duplicated.
    An array of length 0 or 1 comes back unchanged, with no random word
    read.  On a fair stream the call returns for every array shorter than
    2^31. *)
Theorem secureShuffle_permutes {A : Type} (s : entropy)
    (arr : list (option A)) :
  (∀ fuel pos arr' pos',
     secureShuffle fuel s arr pos = Ok arr' pos' → arr ≡ₚ arr') ∧
  ((length arr ≤ 1)%nat →
     ∀ fuel pos, secureShuffle fuel s arr pos = Ok arr pos) ∧
  (fair s → Z.of_nat (length arr) < 2^31 → ∀ pos, ∃ fuel arr' pos',
     secureShuffle fuel s arr pos = Ok arr' pos' ∧ arr ≡ₚ arr').
Proof.
  split; [|split].
  - intros fuel pos arr' pos'. apply secureShuffle_perm.
  - intros Hlen fuel pos. unfold secureShuffle.
    by replace (length arr - 1)%nat with 0%nat by lia.
  - intros Hfair Hlen pos.
    destruct (shuffle_loop_returns s (length arr - 1) arr pos Hfair
                ltac:(lia) Hlen) as (arr' & pos' & N & Hrun).
    exists N, arr', pos'. unfold secureShuffle.
    split; [apply Hrun; lia|].
    apply (shuffle_loop_Permutation N s (length arr - 1) arr pos arr' pos');
      [lia | apply Hrun; lia].
Qed.

Lemma secureShuffle_permutes_witness :
  ((length [Some 7] ≤ 1)%nat ∧
   secureShuffle 0 zeros [Some 7] 0%nat = Ok [Some 7] 0%nat) ∧
  (fair zeros ∧ Z.of_nat (length [Some 1; None; Some 3]) < 2^31 ∧
   ∃ fuel arr' pos',
     secureShuffle fuel zeros [Some 1; None; Some 3] 0%nat = Ok arr' pos' ∧
     [Some 1; None; Some 3] ≡ₚ arr').
Proof.
  split.
  - split; [simpl; lia|].
    apply (proj1 (proj2 (secureShuffle_permutes zeros [Some 7]))). simpl. lia.
  - split; [exact fair_zeros|]. split; [simpl; lia|].
    apply (proj2 (proj2 (secureShuffle_permutes zeros [Some 1; None; Some 3])));
      [exact fair_zeros | simpl; lia].
Defined.

(** * Strings and joined arrays *)

Section Strings.

Lemma get_in n str :
  (n < String.length str)%nat →
  ∃ ch, String.get n str = Some ch ∧ ch ∈ chars_of str.
Proof.
  revert n. induction str as [|a str IH]; intros n Hn; simpl in *; [lia|].
  destruct n as [|n].
  - exists a. split; [done | left].
  - destruct (IH n ltac:(lia)) as (ch & ? & ?).
    exists ch. split; [done | by right].
Qed.

Lemma str_at_in str k :
  0 ≤ k < Z.of_nat (String.length str) → drawn_from str (str_at str k).
Proof.
  intros Hk. unfold str_at. destruct (Z.ltb_spec k 0); [lia|].
  destruct (get_in (Z.to_nat k) str ltac:(lia)) as (ch & -> & ?).
  by exists ch.
Qed.

Lemma chars_of_app a b : chars_of (a ++ b) = chars_of a ++ chars_of b.
Proof. induction a as [|x a IH]; simpl; [done | by rewrite <- IH]. Qed.

Lemma chars_of_concat (l : list string) ch :
  ch ∈ chars_of (String.concat "" l) → ∃ str, str ∈ l ∧ ch ∈ chars_of str.
Proof.
  induction l as [|a l IH]; simpl; [by intros ?%elem_of_nil|].
  destruct l as [|b l].
  - intros H. exists a. split; [left | done].
  - rewrite chars_of_app. change (chars_of ("" ++ ?x)) with (chars_of x).
    intros [H|H]%elem_of_app.
    + exists a. split; [left | done].
    + destruct (IH H) as (str & ? & ?). exists str. split; [by right | done].
Qed.

Lemma chars_of_dropAmbiguous str ch :
  ch ∈ chars_of (dropAmbiguous str) →
  ch ∈ chars_of str ∧ AMBIGUOUS.has ch = false.
Proof.
  unfold dropAmbiguous, chars_of.
  rewrite String.list_ascii_of_string_of_list_ascii.
  rewrite !list_elem_of_In, filter_In. intros [? E].
  split; [done | by apply negb_true_iff].
Qed.

Lemma join_length (arr : list (option ascii)) :
  Forall is_Some arr → String.length (join arr) = length arr.
Proof.
  induction 1 as [|x arr [ch ->] _ IH]; simpl; [done | by rewrite IH].
Qed.

Lemma join_elem (arr : list (option ascii)) ch :
  ch ∈ chars_of (join arr) ↔ Some ch ∈ arr.
Proof.
  induction arr as [|[a|] arr IH]; simpl.
  - by rewrite !elem_of_nil.
  - change (chars_of (String a (join arr))) with (a :: chars_of (join arr)).
    rewrite !elem_of_cons, IH. intuition congruence.
  - rewrite elem_of_cons, IH. intuition congruence.
Qed.

Lemma drawn_from_is_Some str x : drawn_from str x → is_Some x.
Proof. intros (ch & -> & _). by exists ch. Qed.

End Strings.

(** * The assembly *)

Section Assembly.

(** ** What the pools can be *)

Lemma filteredPools_nonempty c : activePools c ≠ [] → filteredPools c ≠ [].
Proof. by destruct c as [? [] [] [] [] [] ?]. Qed.

Lemma filteredPools_sizes c :
  Forall (λ p, (0 < String.length (chars p) ≤ 28)%nat) (filteredPools c).
Proof.
  destruct c as [? [] [] [] [] [] ?]; cbv; repeat constructor.
Qed.

Lemma filteredPools_count c : (length (filteredPools c) ≤ 4)%nat.
Proof. destruct c as [? [] [] [] [] [] ?]; cbv; lia. Qed.

Lemma alphabet_size c :
  activePools c ≠ [] → (0 < String.length (alphabet c) ≤ 90)%nat.
Proof.
  destruct c as [? [] [] [] [] [] ?]; intros H; try done; cbv; lia.
Qed.

Lemma filteredPools_no_ambiguous c p ch :
  noAmbig c = true → p ∈ filteredPools c → ch ∈ chars_of (chars p) →
  AMBIGUOUS.has ch = false.
Proof.
  intros Hno Hp Hch. unfold filteredPools in Hp. rewrite Hno in Hp.
  apply list_elem_of_In, filter_In in Hp as [Hp _].
  apply in_map_iff in Hp as (p0 & <- & _). simpl in Hch.
  by apply chars_of_dropAmbiguous in Hch as [_ ?].
Qed.

(** Every character of the alphabet is a character of some pool. *)
Lemma alphabet_from_pools c ch :
  ch ∈ chars_of (alphabet c) →
  ∃ p, p ∈ filteredPools c ∧ ch ∈ chars_of (chars p).
Proof.
  intros (str & Hstr & Hch)%chars_of_concat.
  apply list_elem_of_fmap in Hstr as (p & -> & Hp). by exists p.
Qed.

(** ** The seeding loop *)

Lemma seed_loop_Ok fuel s pools acc pos out pos' :
  Forall (λ p, (0 < String.length (chars p))%nat) pools →
  seed_loop fuel s pools acc pos = Ok out pos' →
  ∃ seeds, out = acc ++ seeds ∧
           Forall2 (λ p x, drawn_from (chars p) x) pools seeds.
Proof.
  intros Hne. revert acc pos.
  induction Hne as [|p pools Hp _ IH]; intros acc pos H.
  - injection H as <- _. exists []. by rewrite app_nil_r.
  - simpl in H. destruct (Nat.ltb_spec 0 (String.length (chars p))); [|lia].
    unfold bind in H.
    destruct (secureRandInt fuel s _ pos) as [k pos1| |] eqn:Hk;
      [|done|done].
    apply secureRandInt_Ok in Hk as (_ & Hk & _).
    apply IH in H as (seeds & -> & Hseeds).
    exists (str_at (chars p) k :: seeds). rewrite <- app_assoc.
    split; [done|]. constructor; [by apply str_at_in | done].
Qed.

Lemma seed_loop_returns s pools acc pos :
  fair s →
  Forall (λ p, (0 < String.length (chars p) ≤ 28)%nat) pools →
  ∃ out pos' N, ∀ fuel, (N ≤ fuel)%nat →
    seed_loop fuel s pools acc pos = Ok out pos'.
Proof.
  intros Hfair Hsz. revert acc pos.
  induction Hsz as [|p pools Hp _ IH]; intros acc pos.
  - by exists acc, pos, 0%nat.
  - destruct (secureRandInt_returns s (Z.of_nat (String.length (chars p)))
                pos Hfair ltac:(lia)) as (k & pos1 & N1 & Hrun).
    destruct (IH (acc ++ [str_at (chars p) k]) pos1)
      as (out & pos' & N2 & Hrest).
    exists out, pos', (N1 `max` N2)%nat. intros fuel Hf. simpl.
    destruct (Nat.ltb_spec 0 (String.length (chars p))); [|lia].
    unfold bind. rewrite Hrun by lia. apply Hrest. lia.
Qed.

(** ** The fill loop *)

Lemma fill_loop_Ok fuel s alpha n acc pos out pos' :
  fill_loop fuel s alpha n acc pos = Ok out pos' →
  ∃ extra, out = acc ++ extra ∧ length extra = n ∧
           Forall (drawn_from alpha) extra.
Proof.
  revert acc pos. induction n as [|n IH]; intros acc pos H.
  - injection H as <- _. exists []. by rewrite app_nil_r.
  - simpl in H. unfold bind in H.
    destruct (secureRandInt fuel s _ pos) as [k pos1| |] eqn:Hk;
      [|done|done].
    apply secureRandInt_Ok in Hk as (_ & Hk & _).
    apply IH in H as (extra & -> & Hlen & Hextra).
    exists (str_at alpha k :: extra). rewrite <- app_assoc.
    split; [done|]. split; [simpl; lia|].
    constructor; [by apply str_at_in | done].
Qed.

Lemma fill_loop_returns s alpha n acc pos :
  fair s → 0 < Z.of_nat (String.length alpha) < 2^31 →
  ∃ out pos' N, ∀ fuel, (N ≤ fuel)%nat →
    fill_loop fuel s alpha n acc pos = Ok out pos'.
Proof.
  intros Hfair Hsz. revert acc pos. induction n as [|n IH]; intros acc pos.
  - by exists acc, pos, 0%nat.
  - destruct (secureRandInt_returns s _ pos Hfair Hsz)
      as (k & pos1 & N1 & Hrun).
    destruct (IH (acc ++ [str_at alpha k]) pos1)
      as (out & pos' & N2 & Hrest).
    exists out, pos', (N1 `max` N2)%nat. intros fuel Hf. simpl.
    unfold bind. rewrite Hrun by lia. apply Hrest. lia.
Qed.

End Assembly.

(** * generatePassword *)

(** In [H : (let* x := m in k) pos = Ok _ _], with [bind] unfolded, name
    what [m] returned; the branches where [m] did not return are closed. *)
Tactic Notation "run_bind" hyp(H) "as" ident(x) ident(p) ident(E) :=
  match type of H with
  | match ?m with _ => _ end = _ =>
      destruct m as [x p| |] eqn:E; [|discriminate H|discriminate H]
  end.

Section Generate.

Lemma activePools_length c :
  activePools c ≠ [] → (length (activePools c) =? 0)%nat = false.
Proof.
  intros H. apply Nat.eqb_neq. by destruct (activePools c).
Qed.

Lemma filteredPools_length c :
  activePools c ≠ [] → (length (filteredPools c) =? 0)%nat = false.
Proof.
  intros H%filteredPools_nonempty. apply Nat.eqb_neq.
  by destruct (filteredPools c).
Qed.

(** With a pool enabled, the call never ends on a status message alone. *)
Lemma generatePassword_displays fuel s c pos r pos' :
  activePools c ≠ [] → generatePassword fuel s c pos = Ok r pos' →
  ∃ pw n, r = Generated pw n.
Proof.
  intros Hact H. unfold generatePassword in H.
  rewrite activePools_length, filteredPools_length in H by done.
  unfold bind in H.
  run_bind H as seeded pos1 Hs. run_bind H as filled pos2 Hf.
  run_bind H as shuffled pos3 Hsh.
  injection H as <- _. eauto.
Qed.

(** The anatomy of a displayed password: the seeds, one per pool when the
    guarantee is on; the fill, drawn from the alphabet; a permutation of
    the two, joined. *)
Lemma generatePassword_Generated fuel s c pos pw n pos' :
  generatePassword fuel s c pos = Ok (Generated pw n) pos' →
  ∃ seeds extra shuffled,
    (if guarantee c
     then Forall2 (λ p x, drawn_from (chars p) x) (filteredPools c) seeds
     else seeds = []) ∧
    length extra = Z.to_nat (cfg_length c - Z.of_nat (length seeds)) ∧
    Forall (drawn_from (alphabet c)) extra ∧
    seeds ++ extra ≡ₚ shuffled ∧
    pw = join shuffled ∧ n = String.length (alphabet c).
Proof.
  intros H. unfold generatePassword in H.
  destruct (length (activePools c) =? 0)%nat; [done|].
  destruct (length (filteredPools c) =? 0)%nat; [done|].
  unfold bind in H.
  run_bind H as seeded pos1 Hs. run_bind H as filled pos2 Hf.
  run_bind H as shuffled pos3 Hsh.
  injection H as <- <- _.
  apply fill_loop_Ok in Hf as (extra & -> & Hlen & Hextra).
  apply secureShuffle_perm in Hsh.
  exists seeded, extra, shuffled. repeat split; try done.
  destruct (guarantee c).
  - apply seed_loop_Ok in Hs as (seeds & -> & Hseeds); [done|].
    eapply Forall_impl; [apply filteredPools_sizes|]. simpl. lia.
  - by injection Hs as <- _.
Qed.

Lemma generatePassword_returns s c pos :
  fair s → activePools c ≠ [] → cfg_length c < 2^31 →
  ∃ pw n pos' N, ∀ fuel, (N ≤ fuel)%nat →
    generatePassword fuel s c pos = Ok (Generated pw n) pos'.
Proof.
  intros Hfair Hact Hlen.
  assert (∃ seeded pos1 N1, (length seeded ≤ 4)%nat ∧
            ∀ fuel, (N1 ≤ fuel)%nat →
              (if guarantee c then seed_loop fuel s (filteredPools c) []
               else ret []) pos = Ok seeded pos1)
    as (seeded & pos1 & N1 & Hsz & Hseed).
  { destruct (guarantee c).
    - destruct (seed_loop_returns s (filteredPools c) [] pos Hfair
                  (filteredPools_sizes c)) as (out & pos1 & N1 & Hrun).
      exists out, pos1, N1. split; [|done].
      destruct (seed_loop_Ok N1 s (filteredPools c) [] pos out pos1)
        as (seeds & -> & Hseeds); [|by apply Hrun|].
      + eapply Forall_impl; [apply filteredPools_sizes|]. simpl. lia.
      + apply Forall2_length in Hseeds. simpl. rewrite <- Hseeds.
        apply filteredPools_count.
    - exists [], pos, 0%nat. split; [simpl; lia | done]. }
  pose proof (alphabet_size c Hact) as Halpha.
  destruct (fill_loop_returns s (alphabet c)
              (Z.to_nat (cfg_length c - Z.of_nat (length seeded)))
              seeded pos1 Hfair ltac:(lia)) as (filled & pos2 & N2 & Hfill).
  assert (Z.of_nat (length filled) < 2^31) as Hfilled.
  { destruct (fill_loop_Ok _ _ _ _ _ _ _ _ (Hfill N2 ltac:(lia)))
      as (extra & -> & Hextra & _).
    rewrite length_app, Hextra. lia. }
  destruct (shuffle_loop_returns s (length filled - 1) filled pos2 Hfair
              ltac:(lia) Hfilled) as (shuffled & pos3 & N3 & Hsh).
  exists (join shuffled), (String.length (alphabet c)), pos3,
    (N1 `max` (N2 `max` N3))%nat.
  intros fuel Hfuel. unfold generatePassword.
  rewrite activePools_length, filteredPools_length by done.
  unfold bind. rewrite Hseed by lia. rewrite Hfill by lia.
  unfold secureShuffle. by rewrite Hsh by lia.
Qed.

End Generate.

(** ** What a displayed password is made of *)

Section Anatomy.

Lemma Forall2_covers {X Y} (R : X → Y → Prop) l k x :
  Forall2 R l k → x ∈ l → ∃ y, y ∈ k ∧ R x y.
Proof.
  induction 1 as [|x0 y0 l k HR _ IH]; [by intros ?%elem_of_nil|].
  intros [->|Hx]%elem_of_cons.
  - exists y0. split; [left | done].
  - destruct (IH Hx) as (y & ? & ?). exists y. split; [by right | done].
Qed.

Lemma Forall2_covered {X Y} (R : X → Y → Prop) l k y :
  Forall2 R l k → y ∈ k → ∃ x, x ∈ l ∧ R x y.
Proof.
  induction 1 as [|x0 y0 l k HR _ IH]; [by intros ?%elem_of_nil|].
  intros [->|Hy]%elem_of_cons.
  - exists x0. split; [left | done].
  - destruct (IH Hy) as (x & ? & ?). exists x. split; [by right | done].
Qed.

(** Every cell of the shuffled array holds a character of some pool. *)
Lemma cells_from_pools c (seeds extra shuffled : list (option ascii)) :
  (if guarantee c
   then Forall2 (λ p x, drawn_from (chars p) x) (filteredPools c) seeds
   else seeds = []) →
  Forall (drawn_from (alphabet c)) extra →
  seeds ++ extra ≡ₚ shuffled →
  ∀ x, x ∈ shuffled → ∃ p, p ∈ filteredPools c ∧ drawn_from (chars p) x.
Proof.
  intros Hseeds Hextra Hperm x Hx.
  rewrite <- Hperm in Hx. apply elem_of_app in Hx as [Hx|Hx].
  - destruct (guarantee c); [|subst; by apply elem_of_nil in Hx].
    by apply (Forall2_covered _ _ _ _ Hseeds).
  - rewrite Forall_forall in Hextra.
    destruct (Hextra x Hx) as (ch & -> & Hch).
    apply alphabet_from_pools in Hch as (p & ? & ?).
    exists p. split; [done | by exists ch].
Qed.

Lemma generated_chars fuel s c pos pw n pos' ch :
  generatePassword fuel s c pos = Ok (Generated pw n) pos' →
  ch ∈ chars_of pw →
  ∃ p, p ∈ filteredPools c ∧ ch ∈ chars_of (chars p).
Proof.
  intros (seeds & extra & shuffled & Hseeds & _ & Hextra & Hperm & -> & _)
    %generatePassword_Generated Hch%join_elem.
  destruct (cells_from_pools c seeds extra shuffled Hseeds Hextra Hperm
              _ Hch) as (p & Hp & ch' & [= <-] & Hin).
  by exists p.
Qed.

(** The password has one character per cell. *)
Lemma generated_length fuel s c pos pw n pos' :
  generatePassword fuel s c pos = Ok (Generated pw n) pos' →
  ∃ seeds : list (option ascii),
    (if guarantee c then length seeds = length (filteredPools c)
     else seeds = []) ∧
    String.length pw =
      (length seeds +
       Z.to_nat (cfg_length c - Z.of_nat (length seeds)))%nat.
Proof.
  intros (seeds & extra & shuffled & Hseeds & Hlen & Hextra & Hperm & -> & _)
    %generatePassword_Generated.
  exists seeds. split.
  - destruct (guarantee c); [|done]. symmetry. by eapply Forall2_length.
  - rewrite join_length.
    + by rewrite <- Hperm, length_app, Hlen.
    + apply Forall_forall. intros x Hx.
      destruct (cells_from_pools c seeds extra shuffled Hseeds Hextra Hperm
                  x Hx) as (p & _ & Hd).
      by eapply drawn_from_is_Some.
Qed.

(** With the guarantee on, every pool has a character in the password. *)
Lemma generated_covers fuel s c pos pw n pos' p :
  guarantee c = true →
  generatePassword fuel s c pos = Ok (Generated pw n) pos' →
  p ∈ filteredPools c →
  ∃ ch, ch ∈ chars_of pw ∧ ch ∈ chars_of (chars p).
Proof.
  intros Hg (seeds & extra & shuffled & Hseeds & _ & _ & Hperm & -> & _)
    %generatePassword_Generated Hp.
  rewrite Hg in Hseeds.
  destruct (Forall2_covers _ _ _ _ Hseeds Hp) as (x & Hx & ch & -> & Hch).
  exists ch. split; [|done]. apply join_elem. rewrite <- Hperm.
  apply elem_of_app. by left.
Qed.

End Anatomy.

(** No pool is emptied by the ambiguity filter: as many pools are left as
    were enabled. *)
Lemma filteredPools_all_kept c :
  length (filteredPools c) = length (activePools c).
Proof. by destruct c as [? [] [] [] [] [] ?]. Qed.

(** C1. For every valid configuration (a pool enabled, a pool left after
    the ambiguity filter, and room for one character per pool when the
    guarantee is on) whose length is a character count, every password that
    generatePassword displays has exactly the configured number of
    characters, and the call never stops at a status message.  On a fair
    entropy stream, for lengths below 2^31, the call does display one. *)
Theorem generatePassword_length (s : entropy) (c : Config) :
  valid c → 0 ≤ cfg_length c →
  (∀ fuel pos r pos', generatePassword fuel s c pos = Ok r pos' →
     ∃ pw n, r = Generated pw n ∧
             Z.of_nat (String.length pw) = cfg_length c) ∧
  (fair s → cfg_length c < 2^31 → ∀ pos, ∃ fuel pw n pos',
     generatePassword fuel s c pos = Ok (Generated pw n) pos' ∧
     Z.of_nat (String.length pw) = cfg_length c).
Proof.
  intros (Hact & _ & Hroom) Hlen.
  assert (∀ fuel pos pw n pos',
            generatePassword fuel s c pos = Ok (Generated pw n) pos' →
            Z.of_nat (String.length pw) = cfg_length c) as Hcount.
  { intros fuel pos pw n pos' (seeds & Hseeds & ->)%generated_length.
    destruct (guarantee c).
    - specialize (Hroom eq_refl). lia.
    - subst seeds. simpl. lia. }
  split.
  - intros fuel pos r pos' H.
    destruct (generatePassword_displays _ _ _ _ _ _ Hact H) as (pw & n & ->).
    exists pw, n. split; [done | by eapply Hcount].
  - intros Hfair Hmax pos.
    destruct (generatePassword_returns s c pos Hfair Hact Hmax)
      as (pw & n & pos' & N & Hrun).
    exists N, pw, n, pos'. split; [by apply Hrun|].
    eapply Hcount. by apply Hrun.
Qed.

Lemma generatePassword_length_witness :
  valid all_boxes ∧ 0 ≤ cfg_length all_boxes ∧ fair zeros ∧
  ∃ fuel pw n pos',
    generatePassword fuel zeros all_boxes 0%nat = Ok (Generated pw n) pos' ∧
    Z.of_nat (String.length pw) = cfg_length all_boxes.
Proof.
  assert (valid all_boxes) as Hv.
  { split; [done|]. split; [done|]. intros _. simpl. lia. }
  assert (0 ≤ cfg_length all_boxes) as Hl by (simpl; lia).
  split; [exact Hv|]. split; [exact Hl|]. split; [exact fair_zeros|].
  apply (proj2 (generatePassword_length zeros all_boxes Hv Hl) fair_zeros).
  simpl. lia.
Defined.

(** C2. With guaranteeEachType set, every password that generatePassword
    displays contains, for each enabled pool left after the ambiguity
    filter, at least one character of that pool (whatever the length).  On
    a fair entropy stream, with a pool enabled and a length below 2^31, the
    call does display one. *)
Theorem generatePassword_covers_pools (s : entropy) (c : Config) :
  guarantee c = true →
  (∀ fuel pos pw n pos',
     generatePassword fuel s c pos = Ok (Generated pw n) pos' →
     ∀ p, p ∈ filteredPools c →
       ∃ ch, ch ∈ chars_of pw ∧ ch ∈ chars_of (chars p)) ∧
  (fair s → activePools c ≠ [] → cfg_length c < 2^31 →
   ∀ pos, ∃ fuel pw n pos',
     generatePassword fuel s c pos = Ok (Generated pw n) pos' ∧
     ∀ p, p ∈ filteredPools c →
       ∃ ch, ch ∈ chars_of pw ∧ ch ∈ chars_of (chars p)).
Proof.
  intros Hg. split.
  - intros fuel pos pw n pos' H p Hp. by eapply generated_covers.
  - intros Hfair Hact Hmax pos.
    destruct (generatePassword_returns s c pos Hfair Hact Hmax)
      as (pw & n & pos' & N & Hrun).
    exists N, pw, n, pos'. split; [by apply Hrun|].
    intros p Hp. eapply generated_covers; [done | by apply Hrun | done].
Qed.

Lemma generatePassword_covers_pools_witness :
  guarantee all_boxes = true ∧ fair zeros ∧ activePools all_boxes ≠ [] ∧
  cfg_length all_boxes < 2^31 ∧
  ∃ fuel pw n pos',
    generatePassword fuel zeros all_boxes 0%nat = Ok (Generated pw n) pos' ∧
    ∀ p, p ∈ filteredPools all_boxes →
      ∃ ch, ch ∈ chars_of pw ∧ ch ∈ chars_of (chars p).
Proof.
  assert (activePools all_boxes ≠ []) as Hact by done.
  assert (cfg_length all_boxes < 2^31) as Hmax by (simpl; lia).
  split; [reflexivity|]. split; [exact fair_zeros|].
  split; [exact Hact|]. split; [exact Hmax|].
  exact (proj2 (generatePassword_covers_pools zeros all_boxes eq_refl)
           fair_zeros Hact Hmax 0%nat).
Defined.

(** C3. With excludeAmbiguous set, no pool left after the filter and no
    position of the combined alphabet holds a member of the AMBIGUOUS set,
    and no character of a displayed password is a member of it.  On a fair
    entropy stream, with a pool enabled and a length below 2^31, the call
    does display a password. *)
Theorem generatePassword_no_ambiguous (s : entropy) (c : Config) :
  noAmbig c = true →
  (∀ p ch, p ∈ filteredPools c → ch ∈ chars_of (chars p) →
     AMBIGUOUS.has ch = false) ∧
  (∀ ch, ch ∈ chars_of (alphabet c) → AMBIGUOUS.has ch = false) ∧
  (∀ fuel pos pw n pos',
     generatePassword fuel s c pos = Ok (Generated pw n) pos' →
     ∀ ch, ch ∈ chars_of pw → AMBIGUOUS.has ch = false) ∧
  (fair s → activePools c ≠ [] → cfg_length c < 2^31 →
   ∀ pos, ∃ fuel pw n pos',
     generatePassword fuel s c pos = Ok (Generated pw n) pos' ∧
     ∀ ch, ch ∈ chars_of pw → AMBIGUOUS.has ch = false).
Proof.
  intros Hno.
  assert (∀ fuel pos pw n pos',
            generatePassword fuel s c pos = Ok (Generated pw n) pos' →
            ∀ ch, ch ∈ chars_of pw → AMBIGUOUS.has ch = false) as Hclean.
  { intros fuel pos pw n pos' H ch Hch.
    destruct (generated_chars _ _ _ _ _ _ _ _ H Hch) as (p & Hp & Hin).
    by eapply filteredPools_no_ambiguous. }
  split; [|split; [|split]].
  - intros p ch Hp Hch. by eapply filteredPools_no_ambiguous.
  - intros ch (p & Hp & Hch)%alphabet_from_pools.
    by eapply filteredPools_no_ambiguous.
  - exact Hclean.
  - intros Hfair Hact Hmax pos.
    destruct (generatePassword_returns s c pos Hfair Hact Hmax)
      as (pw & n & pos' & N & Hrun).
    exists N, pw, n, pos'. split; [by apply Hrun|].
    eapply Hclean. by apply Hrun.
Qed.

Lemma generatePassword_no_ambiguous_witness :
  noAmbig all_boxes = true ∧ fair zeros ∧ activePools all_boxes ≠ [] ∧
  cfg_length all_boxes < 2^31 ∧
  ∃ fuel pw n pos',
    generatePassword fuel zeros all_boxes 0%nat = Ok (Generated pw n) pos' ∧
    ∀ ch, ch ∈ chars_of pw → AMBIGUOUS.has ch = false.
Proof.
  assert (activePools all_boxes ≠ []) as Hact by done.
  assert (cfg_length all_boxes < 2^31) as Hmax by (simpl; lia).
  split; [reflexivity|]. split; [exact fair_zeros|].
  split; [exact Hact|]. split; [exact Hmax|].
  exact (proj2 (proj2 (proj2
           (generatePassword_no_ambiguous zeros all_boxes eq_refl)))
           fair_zeros Hact Hmax 0%nat).
Defined.

(** C4, as the spec words it, fails: with four pools enabled, the guarantee
    on and a length of 2, generatePassword raises no error; it displays
    the four-character password a0!A. *)
Lemma generatePassword_too_short_displays :
  guarantee too_short = true ∧
  cfg_length too_short < Z.of_nat (length (activePools too_short)) ∧
  generatePassword 32 zeros too_short 0%nat
    = Ok (Generated "a0!A" 90) 7%nat.
Proof. split; [reflexivity|]. split; [reflexivity|]. reflexivity. Qed.

Section SeedsOnly.

Lemma chars_of_join (arr : list (option ascii)) :
  chars_of (join arr) = omap id arr.
Proof.
  induction arr as [|[a|] arr IH]; simpl; [done | | done].
  change (chars_of (String a (join arr))) with (a :: chars_of (join arr)).
  by rewrite IH.
Qed.

Lemma omap_id_Some (picks : list ascii) : omap id (map Some picks) = picks.
Proof. induction picks as [|a picks IH]; [done|]. simpl. by f_equal. Qed.

(** Seeds are characters, one out of each pool, in the order of the pools. *)
Lemma seeds_picks (pools : list pool) (seeds : list (option ascii)) :
  Forall2 (λ p x, drawn_from (chars p) x) pools seeds →
  ∃ picks : list ascii, seeds = map Some picks ∧
    Forall2 (λ p ch, ch ∈ chars_of (chars p)) pools picks.
Proof.
  induction 1 as [|p x pools seeds (ch & -> & Hch) _ (picks & -> & IH)].
  - by exists [].
  - exists (ch :: picks). split; [done | by constructor].
Qed.

(** With the guarantee on and a length below the number of pools, the fill
    adds nothing: the password is the seeds, reordered. *)
Lemma generated_seeds_only fuel s c pos pw n pos' :
  guarantee c = true →
  cfg_length c < Z.of_nat (length (filteredPools c)) →
  generatePassword fuel s c pos = Ok (Generated pw n) pos' →
  ∃ picks : list ascii,
    Forall2 (λ p ch, ch ∈ chars_of (chars p)) (filteredPools c) picks ∧
    chars_of pw ≡ₚ picks.
Proof.
  intros Hg Hshort
    (seeds & extra & shuffled & Hseeds & Hlen & _ & Hperm & -> & _)
    %generatePassword_Generated.
  rewrite Hg in Hseeds.
  pose proof (Forall2_length _ _ _ Hseeds) as Hcount.
  assert (extra = []) as -> by (apply length_zero_iff_nil; lia).
  rewrite app_nil_r in Hperm.
  destruct (seeds_picks _ _ Hseeds) as (picks & -> & Hpicks).
  exists picks. split; [done|].
  by rewrite chars_of_join, <- Hperm, omap_id_Some.
Qed.

End SeedsOnly.

(** C4, amended. If guaranteeEachType is set, a pool is enabled and the
    configured length is smaller than the number of enabled pools,
    generatePassword does not reject the configuration: whenever it
    finishes it displays a password made of exactly one character from each
    enabled pool (as the ambiguity filter leaves it), in some order, so
    every pool has a character in it and it has as many characters as
    there are pools, not the configured length.  On a fair entropy stream
    it does finish. *)
Theorem generatePassword_short_length (s : entropy) (c : Config) :
  guarantee c = true → activePools c ≠ [] →
  cfg_length c < Z.of_nat (length (activePools c)) →
  (∀ fuel pos r pos', generatePassword fuel s c pos = Ok r pos' →
     ∃ pw n, r = Generated pw n ∧
             String.length pw = length (activePools c) ∧
             (∃ picks : list ascii,
                Forall2 (λ p ch, ch ∈ chars_of (chars p))
                  (filteredPools c) picks ∧
                chars_of pw ≡ₚ picks) ∧
             (∀ p, p ∈ filteredPools c →
                ∃ ch, ch ∈ chars_of pw ∧ ch ∈ chars_of (chars p))) ∧
  (fair s → ∀ pos, ∃ fuel pw n pos',
     generatePassword fuel s c pos = Ok (Generated pw n) pos' ∧
     String.length pw = length (activePools c) ∧
     (∃ picks : list ascii,
        Forall2 (λ p ch, ch ∈ chars_of (chars p)) (filteredPools c) picks ∧
        chars_of pw ≡ₚ picks) ∧
     (∀ p, p ∈ filteredPools c →
        ∃ ch, ch ∈ chars_of pw ∧ ch ∈ chars_of (chars p))).
Proof.
  intros Hg Hact Hshort.
  assert (∀ fuel pos pw n pos',
            generatePassword fuel s c pos = Ok (Generated pw n) pos' →
            String.length pw = length (activePools c) ∧
            (∃ picks : list ascii,
               Forall2 (λ p ch, ch ∈ chars_of (chars p))
                 (filteredPools c) picks ∧
               chars_of pw ≡ₚ picks) ∧
            (∀ p, p ∈ filteredPools c →
               ∃ ch, ch ∈ chars_of pw ∧ ch ∈ chars_of (chars p)))
    as Hshape.
  { intros fuel pos pw n pos' H. split; [|split].
    - apply generated_length in H as (seeds & Hseeds & ->).
      rewrite Hg, filteredPools_all_kept in Hseeds. lia.
    - apply (generated_seeds_only fuel s c pos pw n pos'); [done | | done].
      by rewrite filteredPools_all_kept.
    - intros p Hp. by eapply generated_covers. }
  split.
  - intros fuel pos r pos' H.
    destruct (generatePassword_displays _ _ _ _ _ _ Hact H) as (pw & n & ->).
    exists pw, n. split; [done | by eapply Hshape].
  - intros Hfair pos.
    pose proof (filteredPools_count c). pose proof (filteredPools_all_kept c).
    destruct (generatePassword_returns s c pos Hfair Hact ltac:(lia))
      as (pw & n & pos' & N & Hrun).
    exists N, pw, n, pos'. split; [by apply Hrun|].
    eapply Hshape. by apply Hrun.
Qed.

Lemma generatePassword_short_length_witness :
  guarantee too_short = true ∧ activePools too_short ≠ [] ∧
  cfg_length too_short < Z.of_nat (length (activePools too_short)) ∧
  fair zeros ∧
  ∃ fuel pw n pos',
    generatePassword fuel zeros too_short 0%nat = Ok (Generated pw n) pos' ∧
    String.length pw = length (activePools too_short) ∧
    (∃ picks : list ascii,
       Forall2 (λ p ch, ch ∈ chars_of (chars p))
         (filteredPools too_short) picks ∧
       chars_of pw ≡ₚ picks) ∧
    (∀ p, p ∈ filteredPools too_short →
       ∃ ch, ch ∈ chars_of pw ∧ ch ∈ chars_of (chars p)).
Proof.
  assert (activePools too_short ≠ []) as Hact by done.
  assert (cfg_length too_short < Z.of_nat (length (activePools too_short)))
    as Hshort by (simpl; lia).
  split; [reflexivity|]. split; [exact Hact|]. split; [exact Hshort|].
  split; [exact fair_zeros|].
  exact (proj2 (generatePassword_short_length zeros too_short eq_refl
                  Hact Hshort) fair_zeros 0%nat).
Defined.

(** * Further properties of the sampler *)

Section SamplerMore.
Import Int32 Int32Facts.

Lemma pow2_le_31 k : 0 ≤ k ≤ 31 → 0 < 2^k ≤ 2^31.
Proof.
  intros Hk. split; [apply Z.pow_pos_nonneg; lia | apply Z.pow_le_mono_r; lia].
Qed.

(** Masking a stored word with [k] ones leaves its [k] low bits. *)
Lemma and_low_bits x k :
  0 ≤ k ≤ 31 → and (to_uint32 x) (2^k - 1) = x mod 2^k.
Proof.
  intros Hk. pose proof (pow2_le_31 k Hk) as Hp.
  pose proof (Z.mod_pos_bound x (2^k) ltac:(lia)) as Hx.
  unfold and. rewrite (to_int32_small (2^k - 1)) by lia.
  replace (2^k - 1) with (Z.ones k) by (rewrite Z.ones_equiv; lia).
  rewrite Z.land_ones by lia.
  assert (to_int32 (to_uint32 x) mod 2^k = x mod 2^k) as ->.
  { unfold to_int32, to_uint32.
    rewrite (Z.mod_eq (x mod 2^32 + 2^31) (2^32)) by lia.
    rewrite (Z.mod_eq x (2^32)) by lia.
    set (q := x / 2^32). set (r := (x - 2^32 * q + 2^31) / 2^32).
    assert (2^32 = 2^(32 - k) * 2^k) as E.
    { rewrite <- Z.pow_add_r by lia. f_equal. lia. }
    replace (x - 2^32 * q + 2^31 - 2^32 * r - 2^31)
      with (x + (- (q + r) * 2^(32 - k)) * 2^k) by (rewrite E; lia).
    apply Z.mod_add. lia. }
  apply to_int32_small. lia.
Qed.

Lemma log2_succ_le_31 max : 0 < max < 2^31 → 0 ≤ Z.log2 max + 1 ≤ 31.
Proof.
  intros Hmax. pose proof (Z.log2_nonneg max).
  assert (Z.log2 max < 31) by (apply Z.log2_lt_pow2; lia). lia.
Qed.

(** If every word from the cursor on is rejected, the loop is still running
    whatever the fuel. *)
Lemma draw_loop_all_rejected fuel s mask max pos :
  (∀ q, (pos ≤ q)%nat → max ≤ and (to_uint32 (s q)) mask) →
  draw_loop fuel s mask max pos = OutOfFuel.
Proof.
  revert pos. induction fuel as [|fuel IH]; intros pos Hrej; [done|].
  simpl. unfold bind, getRandomValues.
  pose proof (Hrej pos ltac:(lia)).
  destruct (Z.geb_spec (and (to_uint32 (s pos)) mask) max); [|lia].
  apply IH. intros q Hq. apply Hrej. lia.
Qed.

Lemma draw_loop_no_Throw fuel s mask max pos e :
  draw_loop fuel s mask max pos ≠ Throw e.
Proof.
  revert pos. induction fuel as [|fuel IH]; intros pos; [done|].
  simpl. unfold bind, getRandomValues.
  destruct (_ >=? max); [apply IH | done].
Qed.

Lemma secureRandInt_Throw fuel s max pos e :
  secureRandInt fuel s max pos = Throw e → max ≤ 0.
Proof.
  unfold secureRandInt. destruct (Z.leb_spec max 0); [done|].
  destruct (mask_loop fuel 1 max); [|done].
  intros Hd. by apply draw_loop_no_Throw in Hd.
Qed.

(** A word that is itself below [max] is returned at once. *)
Lemma secureRandInt_immediate fuel s max pos :
  0 ≤ s pos < max → max < 2^31 → (32 ≤ fuel)%nat →
  secureRandInt fuel s max pos = Ok (s pos) (S pos).
Proof.
  intros Hw Hmax Hfuel. unfold secureRandInt.
  destruct (Z.leb_spec max 0); [lia|].
  rewrite mask_loop_value by lia.
  pose proof (log2_succ_le_31 max ltac:(lia)) as Hk.
  pose proof (Z.log2_spec max ltac:(lia)) as [_ Hhi].
  replace (Z.succ (Z.log2 max)) with (Z.log2 max + 1) in Hhi by lia.
  assert (and (to_uint32 (s pos)) (2^(Z.log2 max + 1) - 1) = s pos) as E.
  { rewrite and_low_bits by done. apply Z.mod_small. lia. }
  pose proof (draw_loop_first 0 s (2^(Z.log2 max + 1) - 1) max pos) as Hd.
  replace (pos + 0)%nat with pos in Hd by lia. rewrite E in Hd.
  apply Hd; [lia | intros q Hq; lia | lia].
Qed.

End SamplerMore.

(** X1. With k = floor(log2 max) + 1, secureRandInt(max) returns the k low
    bits of the first word, from the cursor on, whose k low bits are below
    max, and it leaves the cursor right after that word: nothing but those
    k bits of each word decides the result. *)
Theorem secureRandInt_first_accepted (s : entropy) (max : Z) :
  0 < max < 2^31 →
  (∀ fuel pos v pos', secureRandInt fuel s max pos = Ok v pos' →
     (pos < pos')%nat ∧
     v = s (pos' - 1)%nat mod 2^(Z.log2 max + 1) ∧ v < max ∧
     ∀ q, (pos ≤ q < pos' - 1)%nat → max ≤ s q mod 2^(Z.log2 max + 1)) ∧
  (∀ pos n,
     s (pos + n)%nat mod 2^(Z.log2 max + 1) < max →
     (∀ q, (pos ≤ q < pos + n)%nat → max ≤ s q mod 2^(Z.log2 max + 1)) →
     ∀ fuel, (32 + n < fuel)%nat →
       secureRandInt fuel s max pos
       = Ok (s (pos + n)%nat mod 2^(Z.log2 max + 1)) (S (pos + n))).
Proof.
  intros Hmax. pose proof (log2_succ_le_31 max Hmax) as Hk. split.
  - intros fuel pos v pos' H. unfold secureRandInt in H.
    destruct (Z.leb_spec max 0); [lia|].
    destruct (mask_loop fuel 1 max) as [mask|] eqn:Hm; [|done].
    apply (mask_loop_mono _ (fuel + 32)%nat) in Hm; [|lia].
    rewrite mask_loop_value in Hm by lia. injection Hm as <-.
    apply draw_loop_Ok in H as (Hv & Hpos & Ev & Hrej).
    rewrite and_low_bits in Ev by done.
    repeat split; [lia | done | lia |].
    intros q Hq. specialize (Hrej q Hq). by rewrite and_low_bits in Hrej.
  - intros pos n Hacc Hrej fuel Hf. unfold secureRandInt.
    destruct (Z.leb_spec max 0); [lia|].
    rewrite mask_loop_value by lia.
    rewrite <- (and_low_bits (s (pos + n)%nat)) by done.
    apply draw_loop_first; [by rewrite and_low_bits | | lia].
    intros q Hq. rewrite and_low_bits by done. by apply Hrej.
Qed.

Lemma secureRandInt_first_accepted_witness :
  0 < 10 < 2^31 ∧ descending 2%nat mod 2^(Z.log2 10 + 1) < 10 ∧
  secureRandInt 40 descending 10 0%nat
  = Ok (descending 2%nat mod 2^(Z.log2 10 + 1)) 3%nat.
Proof.
  split; [lia|]. split; [reflexivity|].
  apply (proj2 (secureRandInt_first_accepted descending 10 ltac:(lia)) 0%nat
           2%nat); [reflexivity | | lia].
  intros q Hq. assert (q = 0 ∨ q = 1)%nat as [-> | ->] by lia; discriminate.
Defined.

(** X2. The mask the sampler computes for a positive max lies between max
    and 2*max - 1, so at least half of the masked values pass the
    acceptance test. *)
Theorem mask_loop_below_double (fuel : nat) (max m : Z) :
  0 < max → mask_loop fuel 1 max = Some m → max ≤ m < 2 * max.
Proof.
  intros Hmax H.
  pose proof (mask_loop_exit _ _ _ _ H ltac:(lia)) as Hexit.
  apply (mask_loop_mono _ (fuel + 32)%nat) in H; [|lia].
  rewrite mask_loop_value in H by lia. injection H as <-.
  pose proof (Z.log2_spec max Hmax) as [Hlo _].
  pose proof (Z.log2_nonneg max).
  rewrite Z.pow_add_r in * by lia. change (2 ^ 1) with 2 in *. lia.
Qed.

Lemma mask_loop_below_double_witness :
  0 < 65 ∧ mask_loop 32 1 65 = Some 127 ∧ 65 ≤ 127 < 2 * 65.
Proof.
  split; [lia|]. split; [reflexivity|].
  apply (mask_loop_below_double 32 65 127); [lia | reflexivity].
Defined.

(** X3. On a source stuck at the word 0xFFFFFFFF, secureRandInt never
    returns, whatever the positive max: every masked draw equals the mask,
    which is not below max. *)
Theorem secureRandInt_saturated_hangs (fuel : nat) (max : Z) (pos : nat) :
  0 < max → secureRandInt fuel saturated max pos = OutOfFuel.
Proof.
  intros Hmax. unfold secureRandInt. destruct (Z.leb_spec max 0); [lia|].
  destruct (mask_loop fuel 1 max) as [mask|] eqn:Hm; [|done].
  apply mask_loop_exit in Hm; [|lia].
  apply draw_loop_all_rejected. intros q _.
  unfold Int32.and, saturated.
  change (Int32.to_int32 (Int32.to_uint32 4294967295)) with (-1).
  rewrite Z.land_m1_l.
  rewrite (Int32Facts.to_int32_small mask) by lia.
  rewrite (Int32Facts.to_int32_small mask) by lia. lia.
Qed.

Lemma secureRandInt_saturated_hangs_witness :
  0 < 26 ∧ secureRandInt 1000 saturated 26 0%nat = OutOfFuel.
Proof.
  split; [lia|]. apply (secureRandInt_saturated_hangs 1000 26 0%nat). lia.
Defined.

(** X4. secureRandInt throws only for max <= 0, and from max = 2^31 on it
    never returns, whatever the entropy stream: its mask loop does not
    end. *)
Theorem secureRandInt_outcomes (fuel : nat) (s : entropy) (max : Z)
    (pos : nat) :
  (∀ e, secureRandInt fuel s max pos = Throw e → max ≤ 0) ∧
  (2^31 ≤ max → secureRandInt fuel s max pos = OutOfFuel).
Proof.
  split.
  - intros e. apply secureRandInt_Throw.
  - intros Hmax. unfold secureRandInt. destruct (Z.leb_spec max 0); [lia|].
    pose proof (mask_loop_diverges_from fuel 1 max ltac:(lia) Hmax) as Hd.
    change (2 ^ 1 - 1) with 1 in Hd. by rewrite Hd.
Qed.

Lemma secureRandInt_outcomes_witness :
  2^31 ≤ 2^31 ∧ secureRandInt 1000 zeros (2^31) 0%nat = OutOfFuel.
Proof.
  split; [lia|].
  apply (proj2 (secureRandInt_outcomes 1000 zeros (2^31) 0%nat)). lia.
Defined.

(** * Further properties of the shuffle *)

Section ShuffleOnto.
Context {A : Type}.
Implicit Types (arr target : list (option A)).

(** With the cells above [i] already as in [target] and the cells up to [i]
    a permutation of the target's, some choice of indices makes the loop
    end on [target]; a stream that delivers these indices as its words
    drives the loop there without a single rejection. *)
Lemma shuffle_loop_onto i arr target :
  (i < length arr)%nat ∨ i = 0%nat →
  Z.of_nat (length arr) < 2^31 →
  take (S i) arr ≡ₚ take (S i) target →
  drop (S i) arr = drop (S i) target →
  ∃ js : list Z, ∀ s pos fuel,
    (∀ n, (n < i)%nat → s (pos + n)%nat = nth n js 0) → (32 ≤ fuel)%nat →
    shuffle_loop fuel s i arr pos = Ok target (pos + i)%nat.
Proof.
  revert arr. induction i as [|i IH]; intros arr Hi Hlen Hperm Hdrop.
  - exists []. intros s pos fuel _ _. simpl.
    replace (pos + 0)%nat with pos by lia. unfold ret. f_equal.
    destruct arr as [|a r], target as [|b r']; simpl in *.
    + done.
    + by apply Permutation_nil_cons in Hperm.
    + symmetry in Hperm. by apply Permutation_nil_cons in Hperm.
    + apply Permutation_length_1 in Hperm. rewrite !drop_0 in Hdrop.
      congruence.
  - destruct Hi as [Hi|]; [|lia].
    pose proof (Permutation_length Hperm) as Hl.
    rewrite length_take_le, length_take in Hl by lia.
    destruct (lookup_lt_is_Some_2 target (S i) ltac:(lia)) as [x Hx].
    destruct (lookup_lt_is_Some_2 arr (S i) Hi) as [y Hy].
    assert (x ∈ take (S (S i)) arr) as Hin.
    { rewrite Hperm. apply (list_elem_of_lookup_2 _ (S i)).
      by rewrite lookup_take_lt by lia. }
    apply list_elem_of_lookup_1 in Hin as [j Hj].
    apply lookup_take_Some in Hj as [Hj Hjlt].
    set (arr1 := <[j := y]> (<[S i := x]> arr)).
    assert (arr1 !! S i = Some x) as Hx1.
    { unfold arr1. destruct (decide (j = S i)) as [->|Hne].
      - rewrite list_lookup_insert_eq by (rewrite length_insert; lia).
        congruence.
      - rewrite list_lookup_insert_ne by done.
        by rewrite list_lookup_insert_eq by lia. }
    assert (length arr1 = length arr) as Hlen1
      by (unfold arr1; by rewrite !length_insert).
    assert (take (S (S i)) arr1 ≡ₚ take (S (S i)) arr) as Hperm1.
    { unfold arr1. rewrite !take_insert_lt by lia. symmetry.
      apply exchange_Permutation; by rewrite lookup_take_lt by lia. }
    destruct (IH arr1) as [js Hrun].
    + left. lia.
    + by rewrite Hlen1.
    + apply (Permutation_app_inv_r [x]).
      rewrite <- (take_S_r arr1 (S i) x Hx1), <- (take_S_r target (S i) x Hx).
      by rewrite Hperm1.
    + rewrite (drop_S arr1 x (S i) Hx1), (drop_S target x (S i) Hx).
      f_equal. unfold arr1. by rewrite !drop_insert_lt by lia.
    + exists (Z.of_nat j :: js). intros s pos fuel Hs Hfuel.
      pose proof (Hs 0%nat ltac:(lia)) as Hs0.
      replace (pos + 0)%nat with pos in Hs0 by lia. simpl in Hs0.
      cbn [shuffle_loop]. unfold bind.
      rewrite secureRandInt_immediate by lia. rewrite Hs0.
      rewrite (arr_get_in _ _ _ Hy), (arr_get_in _ _ _ Hj).
      rewrite (arr_set_in arr (S i)) by done.
      rewrite arr_set_in by (rewrite length_insert; lia).
      fold arr1. replace (pos + S i)%nat with (S pos + i)%nat by lia.
      apply Hrun; [|done]. intros n Hn.
      replace (S pos + n)%nat with (pos + S n)%nat by lia.
      by rewrite Hs by lia.
Qed.

End ShuffleOnto.

(** X5. secureShuffle can reach every ordering: for each permutation of the
    input array (shorter than 2^31) there is an entropy stream on which
    secureShuffle returns exactly that permutation, reading one word per
    position above the first. *)
Theorem secureShuffle_onto {A : Type} (arr target : list (option A)) :
  arr ≡ₚ target → Z.of_nat (length arr) < 2^31 →
  ∃ s : entropy, ∀ fuel, (32 ≤ fuel)%nat →
    secureShuffle fuel s arr 0%nat = Ok target (length arr - 1)%nat.
Proof.
  intros Hperm Hlen. pose proof (Permutation_length Hperm) as Hl.
  destruct (shuffle_loop_onto (length arr - 1) arr target) as [js Hrun].
  - lia.
  - done.
  - by rewrite !take_ge by lia.
  - by rewrite !drop_ge by lia.
  - exists (scripted js). intros fuel Hfuel. unfold secureShuffle.
    by apply (Hrun (scripted js) 0%nat fuel).
Qed.

Lemma secureShuffle_onto_witness :
  [Some 1; Some 2; Some 3] ≡ₚ [Some 3; Some 1; Some 2] ∧
  Z.of_nat (length [Some 1; Some 2; Some 3]) < 2^31 ∧
  ∃ s : entropy, ∀ fuel, (32 ≤ fuel)%nat →
    secureShuffle fuel s [Some 1; Some 2; Some 3] 0%nat
    = Ok [Some 3; Some 1; Some 2] 2%nat.
Proof.
  assert ([Some 1; Some 2; Some 3] ≡ₚ [Some 3; Some 1; Some 2]) as Hperm.
  { symmetry. apply (Permutation_cons_append [Some 1; Some 2] (Some 3)). }
  assert (Z.of_nat (length [Some 1; Some 2; Some 3]) < 2^31) as Hlen
    by (simpl; lia).
  split; [exact Hperm|]. split; [exact Hlen|].
  exact (secureShuffle_onto [Some 1; Some 2; Some 3]
           [Some 3; Some 1; Some 2] Hperm Hlen).
Defined.

(** * Further properties of generatePassword *)

Section GenerateMore.

Lemma seed_loop_no_Throw fuel s pools acc pos e :
  seed_loop fuel s pools acc pos ≠ Throw e.
Proof.
  revert acc pos. induction pools as [|p pools IH]; intros acc pos; [done|].
  simpl. destruct (Nat.ltb_spec 0 (String.length (chars p))); [|apply IH].
  unfold bind.
  destruct (secureRandInt fuel s _ pos) as [k pos1|e'|] eqn:Hk;
    [apply IH | | done].
  apply secureRandInt_Throw in Hk. lia.
Qed.

Lemma fill_loop_no_Throw fuel s alpha n acc pos e :
  (0 < String.length alpha)%nat →
  fill_loop fuel s alpha n acc pos ≠ Throw e.
Proof.
  intros Halpha. revert acc pos. induction n as [|n IH]; intros acc pos; [done|].
  simpl. unfold bind.
  destruct (secureRandInt fuel s _ pos) as [k pos1|e'|] eqn:Hk;
    [apply IH | | done].
  apply secureRandInt_Throw in Hk. lia.
Qed.

Lemma shuffle_loop_no_Throw {A} fuel s i (arr : list (option A)) pos e :
  shuffle_loop fuel s i arr pos ≠ Throw e.
Proof.
  revert arr pos. induction i as [|i IH]; intros arr pos; [done|].
  cbn [shuffle_loop]. unfold bind.
  destruct (secureRandInt fuel s _ pos) as [k pos1|e'|] eqn:Hk;
    [apply IH | | done].
  apply secureRandInt_Throw in Hk. lia.
Qed.

Lemma activePools_nil c : activePools c = [] ↔ ∀ k, enabled c k = false.
Proof.
  split.
  - destruct c as [? [] [] [] [] ? ?]; intros H; try discriminate H.
    by intros [].
  - intros H. pose proof (H upper) as Hu. pose proof (H lower) as Hl.
    pose proof (H digits) as Hd. pose proof (H symbols) as Hy.
    simpl in *. unfold activePools. by rewrite Hu, Hl, Hd, Hy.
Qed.

(** A pool of the page comes from a ticked checkbox and holds characters of
    the pool of that name only. *)
Lemma filteredPools_origin c p ch :
  p ∈ filteredPools c → ch ∈ chars_of (chars p) →
  enabled c (key p) = true ∧ ch ∈ chars_of (POOLS (key p)).
Proof.
  intros Hp Hch. unfold filteredPools in Hp.
  apply list_elem_of_In, filter_In in Hp as [Hp _].
  apply in_map_iff in Hp as (p0 & <- & Hp0). simpl in *.
  assert (enabled c (key p0) = true ∧ chars p0 = POOLS (key p0)) as [He Hc].
  { unfold activePools in Hp0.
    destruct c as [? u l d y ? ?]; simpl in *.
    destruct u, l, d, y; simpl in Hp0; intuition (subst; done). }
  split; [done|]. rewrite Hc in Hch.
  destruct (noAmbig c); [|done].
  by apply chars_of_dropAmbiguous in Hch as [? _].
Qed.

End GenerateMore.

(** X6. generatePassword never lets the sampler's RangeError escape: every
    bound it passes to secureRandInt is positive. *)
Theorem generatePassword_no_Throw (fuel : nat) (s : entropy) (c : Config)
    (pos : nat) (e : exn) :
  generatePassword fuel s c pos ≠ Throw e.
Proof.
  unfold generatePassword.
  destruct (Nat.eqb_spec (length (activePools c)) 0) as [|Hact]; [done|].
  destruct (length (filteredPools c) =? 0)%nat; [done|].
  assert (activePools c ≠ []) as Hne by (by destruct (activePools c)).
  pose proof (alphabet_size c Hne) as Halpha.
  unfold bind.
  destruct ((if guarantee c then seed_loop fuel s (filteredPools c) []
             else ret []) pos) as [seeded pos1|e'|] eqn:Hs.
  - destruct (fill_loop _ _ _ _ seeded pos1) as [filled pos2|e'|] eqn:Hf.
    + destruct (secureShuffle _ _ filled pos2) as [shuffled pos3|e'|] eqn:Hsh;
        [done | | done].
      unfold secureShuffle in Hsh. by apply shuffle_loop_no_Throw in Hsh.
    + apply fill_loop_no_Throw in Hf; [done | lia].
    + done.
  - destruct (guarantee c); [|done]. by apply seed_loop_no_Throw in Hs.
  - done.
Qed.

(** X7. generatePassword stops at a status message in one case only: when
    no checkbox is ticked.  It then shows "Select at least one character
    type!" and has read no random word.  The message "No characters remain
    after ambiguity filter!" is never shown, since the filter empties no
    pool. *)
Theorem generatePassword_rejects_iff (s : entropy) (c : Config) :
  ((∀ k, enabled c k = false) → ∀ fuel pos,
     generatePassword fuel s c pos
     = Ok (Rejected "Select at least one character type!") pos) ∧
  (∀ fuel pos msg pos',
     generatePassword fuel s c pos = Ok (Rejected msg) pos' →
     (∀ k, enabled c k = false) ∧
     msg = "Select at least one character type!" ∧ pos' = pos).
Proof.
  split.
  - intros Hoff%activePools_nil fuel pos. unfold generatePassword.
    by rewrite Hoff.
  - intros fuel pos msg pos' H.
    destruct (decide (activePools c = [])) as [Hnil|Hact].
    + unfold generatePassword in H. rewrite Hnil in H. simpl in H.
      injection H as <- <-. split; [by apply activePools_nil | done].
    + by destruct (generatePassword_displays _ _ _ _ _ _ Hact H) as (? & ? & ?).
Qed.

Lemma generatePassword_rejects_iff_witness :
  (∀ k, enabled
          {| cfg_length := 12; useUpper := false; useLower := false;
             useDigits := false; useSymbols := false; noAmbig := true;
             guarantee := true |} k = false) ∧
  generatePassword 0 descending
    {| cfg_length := 12; useUpper := false; useLower := false;
       useDigits := false; useSymbols := false; noAmbig := true;
       guarantee := true |} 5%nat
  = Ok (Rejected "Select at least one character type!") 5%nat.
Proof.
  assert (∀ k, enabled
            {| cfg_length := 12; useUpper := false; useLower := false;
               useDigits := false; useSymbols := false; noAmbig := true;
               guarantee := true |} k = false) as Hoff
    by (intros []; reflexivity).
  split; [exact Hoff|].
  exact (proj1 (generatePassword_rejects_iff descending _) Hoff 0%nat 5%nat).
Defined.

Section AlphabetIndex.

Lemma get_lookup n str : String.get n str = chars_of str !! n.
Proof.
  revert n. induction str as [|a str IH]; intros [|n]; simpl; done.
Qed.

Lemma str_at_lookup str i ch :
  str_at str i = Some ch → 0 ≤ i ∧ chars_of str !! Z.to_nat i = Some ch.
Proof.
  unfold str_at. destruct (Z.ltb_spec i 0); [done|].
  rewrite get_lookup. by split.
Qed.

Lemma alphabet_distinct c : NoDup (chars_of (alphabet c)).
Proof.
  destruct c as [? [] [] [] [] [] ?];
    apply (bool_decide_unpack _); vm_compute; exact I.
Qed.

End AlphabetIndex.

(** X8. Whatever the checkboxes, the combined alphabet holds no character
    twice: two different values of the index k never select the same
    character alphabet[k]. *)
Theorem alphabet_NoDup (c : Config) :
  NoDup (chars_of (alphabet c)) ∧
  ∀ i j ch,
    str_at (alphabet c) i = Some ch → str_at (alphabet c) j = Some ch →
    i = j.
Proof.
  split; [apply alphabet_distinct|].
  intros i j ch [Hi Hli]%str_at_lookup [Hj Hlj]%str_at_lookup.
  pose proof (NoDup_lookup _ _ _ _ (alphabet_distinct c) Hli Hlj). lia.
Qed.

Lemma alphabet_NoDup_witness :
  str_at (alphabet all_boxes) 22 = Some "a"%char ∧
  ∀ j, str_at (alphabet all_boxes) j = Some "a"%char → 22 = j.
Proof.
  split; [reflexivity|]. intros j Hj.
  exact (proj2 (alphabet_NoDup all_boxes) 22 j "a"%char eq_refl Hj).
Defined.

(** X9. A displayed password holds characters of ticked pools only: each
    of its characters belongs to the pool of some checkbox that is on. *)
Theorem generatePassword_enabled_only (fuel : nat) (s : entropy) (c : Config)
    (pos : nat) (pw : string) (n : nat) (pos' : nat) (ch : ascii) :
  generatePassword fuel s c pos = Ok (Generated pw n) pos' →
  ch ∈ chars_of pw →
  ∃ k, enabled c k = true ∧ ch ∈ chars_of (POOLS k).
Proof.
  intros H Hch.
  destruct (generated_chars _ _ _ _ _ _ _ _ H Hch) as (p & Hp & Hin).
  exists (key p). by apply filteredPools_origin.
Qed.

Lemma generatePassword_enabled_only_witness :
  generatePassword 32 zeros letters_only 0%nat
    = Ok (Generated "AAAAAAAAAAAA" 52) 23%nat ∧
  "A"%char ∈ chars_of "AAAAAAAAAAAA" ∧
  ∃ k, enabled letters_only k = true ∧ "A"%char ∈ chars_of (POOLS k).
Proof.
  assert (generatePassword 32 zeros letters_only 0%nat
          = Ok (Generated "AAAAAAAAAAAA" 52) 23%nat) as Hrun by reflexivity.
  assert ("A"%char ∈ chars_of "AAAAAAAAAAAA") as Hin by left.
  split; [exact Hrun|]. split; [exact Hin|].
  exact (generatePassword_enabled_only _ _ _ _ _ _ _ _ Hrun Hin).
Defined.

(** X10. With the guarantee off and a length of zero or less,
    generatePassword displays the empty password, reading no random word,
    as soon as one checkbox is ticked. *)
Theorem generatePassword_empty (fuel : nat) (s : entropy) (c : Config)
    (pos : nat) :
  guarantee c = false → cfg_length c ≤ 0 → activePools c ≠ [] →
  generatePassword fuel s c pos
  = Ok (Generated "" (String.length (alphabet c))) pos.
Proof.
  intros Hg Hlen Hact. unfold generatePassword.
  rewrite activePools_length, filteredPools_length, Hg by done.
  unfold bind, ret.
  replace (Z.to_nat (cfg_length c - Z.of_nat (length (@nil (option ascii)))))
    with 0%nat by (simpl; lia).
  done.
Qed.

Lemma generatePassword_empty_witness :
  guarantee
    {| cfg_length := 0; useUpper := true; useLower := false;
       useDigits := false; useSymbols := false; noAmbig := false;
       guarantee := false |} = false ∧
  generatePassword 0 saturated
    {| cfg_length := 0; useUpper := true; useLower := false;
       useDigits := false; useSymbols := false; noAmbig := false;
       guarantee := false |} 0%nat
  = Ok (Generated "" 26) 0%nat.
Proof.
  split; [reflexivity|].
  apply (generatePassword_empty 0 saturated
           {| cfg_length := 0; useUpper := true; useLower := false;
              useDigits := false; useSymbols := false; noAmbig := false;
              guarantee := false |} 0%nat); [reflexivity | simpl; lia | done].
Defined.

(** * The strength meter, the history and the clipboard *)

(** X11. The bar width that updateStrength picks never decreases when the
    entropy grows; it stays between 15 and 100 percent, and it is 100
    exactly from 128 bits on. *)
Theorem rate_monotone (e1 e2 : Z) :
  e1 ≤ e2 →
  15 ≤ pct (rate e1) ∧ pct (rate e1) ≤ pct (rate e2) ∧ pct (rate e2) ≤ 100 ∧
  (pct (rate e1) = 100 ↔ 128 ≤ e1).
Proof.
  intros Hle. unfold rate.
  repeat match goal with
         | |- context [?a <? ?b] => destruct (Z.ltb_spec a b)
         end; simpl; lia.
Qed.

Lemma rate_monotone_witness :
  78 ≤ 130 ∧
  15 ≤ pct (rate 78) ∧ pct (rate 78) ≤ pct (rate 130) ∧
  pct (rate 130) ≤ 100 ∧ (pct (rate 78) = 100 ↔ 128 ≤ 78).
Proof. split; [lia|]. apply (rate_monotone 78 130). lia. Defined.

Section History.

Lemma pushHistory_take pw h :
  (length h ≤ 10)%nat → pushHistory pw h = take 10 (pw :: h).
Proof.
  intros Hlen. unfold pushHistory.
  destruct (Nat.ltb_spec 10 (length (pw :: h))) as [Hfull|Hroom].
  - rewrite removelast_firstn_len. simpl in *.
    by replace (length h) with 10%nat by lia.
  - by rewrite take_ge by lia.
Qed.

Lemma pushHistory_length pw h :
  (length h ≤ 10)%nat → (length (pushHistory pw h) ≤ 10)%nat.
Proof.
  intros Hlen. rewrite pushHistory_take, length_take by done. lia.
Qed.

Lemma take_app_take {X} n (l k : list X) :
  take n (l ++ take n k) = take n (l ++ k).
Proof.
  rewrite !take_app, take_take. do 2 f_equal. lia.
Qed.

End History.

(** X12. After any run of additions to a history of at most ten entries,
    the history holds the most recent passwords, newest first, cut at
    ten: started empty, it is the last ten passwords in reverse order. *)
Theorem pushHistory_most_recent (pws h : list string) :
  (length h ≤ 10)%nat →
  fold_left (fun acc pw => pushHistory pw acc) pws h
  = take 10 (rev pws ++ h).
Proof.
  revert h. induction pws as [|pw pws IH]; intros h Hlen; simpl.
  - by rewrite take_ge by lia.
  - rewrite IH by (by apply pushHistory_length).
    rewrite pushHistory_take by done.
    by rewrite take_app_take, <- app_assoc.
Qed.

Lemma pushHistory_most_recent_witness :
  (length (@nil string) ≤ 10)%nat ∧
  fold_left (fun acc pw => pushHistory pw acc)
    ["p1"; "p2"; "p3"; "p4"; "p5"; "p6"; "p7"; "p8"; "p9"; "p10"; "p11";
     "p12"] []
  = ["p12"; "p11"; "p10"; "p9"; "p8"; "p7"; "p6"; "p5"; "p4"; "p3"].
Proof.
  split; [simpl; lia|].
  apply (pushHistory_most_recent
           ["p1"; "p2"; "p3"; "p4"; "p5"; "p6"; "p7"; "p8"; "p9"; "p10";
            "p11"; "p12"] []). simpl. lia.
Defined.

Section Markup.

Lemma escapeQuotes_id p : "'"%char ∉ chars_of p → escapeQuotes p = p.
Proof.
  induction p as [|ch p IH]; [done|]. intros Hno.
  change (chars_of (String ch p)) with (ch :: chars_of p) in Hno.
  apply not_elem_of_cons in Hno as [Hne Hno]. simpl.
  destruct (Ascii.eqb_spec ch "'") as [->|_]; [done|]. by rewrite IH.
Qed.

Lemma POOLS_no_quote k : "'"%char ∉ chars_of (POOLS k).
Proof. destruct k; apply (bool_decide_unpack _); vm_compute; exact I. Qed.

Lemma prefix_Click pw :
  String.prefix "Click" pw = true → "l"%char ∈ chars_of pw.
Proof.
  destruct pw as [|a [|b pw]]; cbn [String.prefix]; try discriminate.
  - by destruct (ascii_dec "C" a).
  - destruct (ascii_dec "C" a); [|discriminate].
    destruct (ascii_dec "l" b) as [<-|]; [|discriminate].
    intros _. right. left.
Qed.

End Markup.

(** X13. The history box quotes a displayed password as it is: the pools
    hold no single quote, so the escaping that renderHistory applies
    changes no character of it. *)
Theorem generatePassword_needs_no_escape (fuel : nat) (s : entropy)
    (c : Config) (pos : nat) (pw : string) (n : nat) (pos' : nat) :
  generatePassword fuel s c pos = Ok (Generated pw n) pos' →
  escapeQuotes pw = pw.
Proof.
  intros H. apply escapeQuotes_id. intros Hq.
  destruct (generated_chars _ _ _ _ _ _ _ _ H Hq) as (p & Hp & Hin).
  destruct (filteredPools_origin c p _ Hp Hin) as [_ Hpool].
  by apply POOLS_no_quote in Hpool.
Qed.

Lemma generatePassword_needs_no_escape_witness :
  generatePassword 32 descending all_boxes 0%nat
    = Ok (Generated ",^X-_(9>[r~}" 80) 39%nat ∧
  escapeQuotes ",^X-_(9>[r~}" = ",^X-_(9>[r~}".
Proof.
  assert (generatePassword 32 descending all_boxes 0%nat
          = Ok (Generated ",^X-_(9>[r~}" 80) 39%nat) as Hrun by reflexivity.
  split; [exact Hrun|].
  exact (generatePassword_needs_no_escape _ _ _ _ _ _ _ Hrun).
Defined.

(** * The page *)

Section PageFacts.
Variable roundedBits : nat → nat → Z.

Lemma generatePassword_on_Ok fuel s c pg pos pg' pos' :
  generatePassword_on roundedBits fuel s c pg pos = Ok pg' pos' →
  ∃ g, generatePassword fuel s c pos = Ok g pos' ∧
       pg' = display roundedBits c g pg.
Proof.
  unfold generatePassword_on, bind. intros H.
  destruct (generatePassword fuel s c pos) as [g pos1| |]; [|done|done].
  injection H as <- <-. by exists g.
Qed.

Lemma display_in_step c g pg :
  history_in_step pg → history_in_step (display roundedBits c g pg).
Proof.
  intros [Hlen Hbox]. destruct g as [msg|pw n]; simpl.
  - by split.
  - split; [by apply pushHistory_length | done].
Qed.

Lemma perform_in_step fuel s a pg pos pg' pos' :
  history_in_step pg →
  perform roundedBits fuel s a pg pos = Ok pg' pos' →
  history_in_step pg'.
Proof.
  intros Hinv H. destruct a as [c|]; simpl in H.
  - apply generatePassword_on_Ok in H as (g & _ & ->).
    by apply display_in_step.
  - injection H as <- _. split; simpl; [lia | done].
Qed.

End PageFacts.

(** X14. Through any session of Generate and Clear History presses, the
    history never holds more than ten passwords and the history box shows
    exactly the passwords of the history. *)
Theorem session_in_step (roundedBits : nat → nat → Z) (fuel : nat)
    (s : entropy) (acts : list action) (pg : page) (pos : nat)
    (pg' : page) (pos' : nat) :
  history_in_step pg →
  session roundedBits fuel s acts pg pos = Ok pg' pos' →
  history_in_step pg'.
Proof.
  revert pg pos. induction acts as [|a acts IH]; intros pg pos Hinv H.
  - by injection H as <- _.
  - simpl in H. unfold bind in H.
    destruct (perform roundedBits fuel s a pg pos) as [pg1 pos1| |] eqn:Ha;
      [|done|done].
    eapply IH; [|exact H]. by eapply perform_in_step.
Qed.

Lemma session_in_step_witness :
  history_in_step blank_page ∧
  session (fun _ _ => 0) 32 zeros demo_actions blank_page 0%nat
    = Ok demo_end 53%nat ∧
  history demo_end = ["AAAAAAAAAAAA"; "a0!A"] ∧
  history_in_step demo_end.
Proof.
  assert (history_in_step blank_page) as Hinv by (split; [simpl; lia | done]).
  assert (session (fun _ _ => 0) 32 zeros demo_actions blank_page 0%nat
          = Ok demo_end 53%nat) as Hrun by (vm_compute; reflexivity).
  split; [exact Hinv|]. split; [exact Hrun|]. split; [reflexivity|].
  exact (session_in_step _ _ _ _ _ _ _ _ Hinv Hrun).
Defined.

Section PageMore.
Variable roundedBits : nat → nat → Z.

Lemma generatePassword_nothing_ticked fuel s c pos :
  (∀ k, enabled c k = false) →
  generatePassword fuel s c pos
  = Ok (Rejected "Select at least one character type!") pos.
Proof.
  intros Hoff%activePools_nil. unfold generatePassword. by rewrite Hoff.
Qed.

(** The newest entry of the history is the one just added. *)
Lemma pushHistory_head pw h : ∃ rest, pushHistory pw h = pw :: rest.
Proof.
  unfold pushHistory.
  destruct (Nat.ltb_spec 10 (length (pw :: h))) as [Hfull|_]; [|by exists h].
  destruct h as [|x h]; [simpl in Hfull; lia|].
  by exists (removelast (x :: h)).
Qed.

(** A displayed password of a positive configured length is not empty. *)
Lemma generated_nonempty fuel s c pos pw n pos' :
  0 < cfg_length c →
  generatePassword fuel s c pos = Ok (Generated pw n) pos' →
  (0 < String.length pw)%nat.
Proof.
  intros Hlen (seeds & _ & ->)%generated_length. lia.
Qed.

End PageMore.

(** X15. With no checkbox ticked, pressing Generate changes the status line
    and nothing else: the displayed password, the strength meter, the
    history and the history box stay as they were, and no random word is
    read. *)
Theorem generatePassword_on_rejected (roundedBits : nat → nat → Z)
    (fuel : nat) (s : entropy) (c : Config) (pg : page) (pos : nat) :
  (∀ k, enabled c k = false) →
  ∃ pg', generatePassword_on roundedBits fuel s c pg pos = Ok pg' pos ∧
    statusPane pg' = "Select at least one character type!" ∧
    passwordDisplay pg' = passwordDisplay pg ∧
    entropyText pg' = entropyText pg ∧
    strengthBar_width pg' = strengthBar_width pg ∧
    strengthBar_background pg' = strengthBar_background pg ∧
    strengthText pg' = strengthText pg ∧
    history pg' = history pg ∧ historyBox pg' = historyBox pg.
Proof.
  intros Hoff. eexists. unfold generatePassword_on, bind.
  rewrite generatePassword_nothing_ticked by done.
  split; [reflexivity|]. by repeat split.
Qed.

Lemma generatePassword_on_rejected_witness :
  (∀ k, enabled
          {| cfg_length := 12; useUpper := false; useLower := false;
             useDigits := false; useSymbols := false; noAmbig := false;
             guarantee := false |} k = false) ∧
  ∃ pg', generatePassword_on (fun _ _ => 0) 0 zeros
           {| cfg_length := 12; useUpper := false; useLower := false;
              useDigits := false; useSymbols := false; noAmbig := false;
              guarantee := false |} demo_end 53%nat = Ok pg' 53%nat ∧
    statusPane pg' = "Select at least one character type!" ∧
    passwordDisplay pg' = passwordDisplay demo_end ∧
    entropyText pg' = entropyText demo_end ∧
    strengthBar_width pg' = strengthBar_width demo_end ∧
    strengthBar_background pg' = strengthBar_background demo_end ∧
    strengthText pg' = strengthText demo_end ∧
    history pg' = history demo_end ∧ historyBox pg' = historyBox demo_end.
Proof.
  assert (∀ k, enabled
            {| cfg_length := 12; useUpper := false; useLower := false;
               useDigits := false; useSymbols := false; noAmbig := false;
               guarantee := false |} k = false) as Hoff
    by (intros []; reflexivity).
  split; [exact Hoff|].
  exact (generatePassword_on_rejected (fun _ _ => 0) 0 zeros _ demo_end
           53%nat Hoff).
Defined.

(** X16. With a checkbox ticked, a Generate press that finishes leaves on
    the page a password that the assembly returned: it is in the display,
    it is the newest entry of the history, the older entries follow, cut at
    ten, and the meter shows the rating of its entropy. *)
Theorem generatePassword_on_displays (roundedBits : nat → nat → Z)
    (fuel : nat) (s : entropy) (c : Config) (pg : page) (pos : nat)
    (pg' : page) (pos' : nat) :
  activePools c ≠ [] →
  generatePassword_on roundedBits fuel s c pg pos = Ok pg' pos' →
  ∃ n,
    generatePassword fuel s c pos
      = Ok (Generated (passwordDisplay pg') n) pos' ∧
    history pg' = pushHistory (passwordDisplay pg') (history pg) ∧
    (∃ older, history pg' = passwordDisplay pg' :: older) ∧
    historyBox pg' = historyMarkup (history pg') ∧
    strengthText pg'
      = label (rate (roundedBits (String.length (passwordDisplay pg')) n)).
Proof.
  intros Hact (g & Hg & ->)%generatePassword_on_Ok.
  destruct (generatePassword_displays _ _ _ _ _ _ Hact Hg) as (pw & n & ->).
  exists n. simpl. repeat split; try done. apply pushHistory_head.
Qed.

Lemma generatePassword_on_displays_witness :
  activePools too_short ≠ [] ∧
  generatePassword_on (fun _ _ => 0) 32 zeros too_short blank_page 0%nat
    = Ok shown_short 7%nat ∧
  passwordDisplay shown_short = "a0!A" ∧
  ∃ n,
    generatePassword 32 zeros too_short 0%nat
      = Ok (Generated (passwordDisplay shown_short) n) 7%nat ∧
    history shown_short
      = pushHistory (passwordDisplay shown_short) (history blank_page) ∧
    (∃ older, history shown_short = passwordDisplay shown_short :: older) ∧
    historyBox shown_short = historyMarkup (history shown_short) ∧
    strengthText shown_short
      = label (rate ((fun _ _ => 0)
                       (String.length (passwordDisplay shown_short)) n)).
Proof.
  assert (activePools too_short ≠ []) as Hact by done.
  assert (generatePassword_on (fun _ _ => 0) 32 zeros too_short blank_page
            0%nat = Ok shown_short 7%nat) as Hrun by (vm_compute; reflexivity).
  split; [exact Hact|]. split; [exact Hrun|]. split; [reflexivity|].
  exact (generatePassword_on_displays _ _ _ _ _ _ _ _ Hact Hrun).
Defined.

(** X17. With the ambiguity filter on, a ticked checkbox and a positive
    length, the password that a finished Generate press displays is always
    handed to the clipboard by copyPassword: it is not empty and, having
    no letter l, cannot begin with Click. *)
Theorem copyPassword_after_generate (roundedBits : nat → nat → Z)
    (fuel : nat) (s : entropy) (c : Config) (pg : page) (pos : nat)
    (pg' : page) (pos' : nat) :
  noAmbig c = true → activePools c ≠ [] → 0 < cfg_length c →
  generatePassword_on roundedBits fuel s c pg pos = Ok pg' pos' →
  copyPassword pg' = Some (passwordDisplay pg').
Proof.
  intros Hno Hact Hlen (g & Hg & ->)%generatePassword_on_Ok.
  destruct (generatePassword_displays _ _ _ _ _ _ Hact Hg) as (pw & n & ->).
  unfold copyPassword. simpl.
  pose proof (generated_nonempty _ _ _ _ _ _ _ Hlen Hg) as Hne.
  destruct (Nat.eqb_spec (String.length pw) 0); [lia|]. simpl.
  destruct (String.prefix "Click" pw) eqn:Hclick; [|done].
  apply prefix_Click in Hclick.
  destruct (generated_chars _ _ _ _ _ _ _ _ Hg Hclick) as (p & Hp & Hin).
  by pose proof (filteredPools_no_ambiguous c p _ Hno Hp Hin).
Qed.

Lemma copyPassword_after_generate_witness :
  noAmbig all_boxes = true ∧ activePools all_boxes ≠ [] ∧
  0 < cfg_length all_boxes ∧
  generatePassword_on (fun _ _ => 0) 32 descending all_boxes blank_page 0%nat
    = Ok shown_all_boxes 39%nat ∧
  copyPassword shown_all_boxes = Some ",^X-_(9>[r~}".
Proof.
  assert (activePools all_boxes ≠ []) as Hact by done.
  assert (0 < cfg_length all_boxes) as Hlen by (simpl; lia).
  assert (generatePassword_on (fun _ _ => 0) 32 descending all_boxes
            blank_page 0%nat = Ok shown_all_boxes 39%nat) as Hrun
    by (vm_compute; reflexivity).
  split; [reflexivity|]. split; [exact Hact|]. split; [exact Hlen|].
  split; [exact Hrun|].
  exact (copyPassword_after_generate (fun _ _ => 0) 32 descending all_boxes
           blank_page 0%nat shown_all_boxes 39%nat eq_refl Hact Hlen Hrun).
Defined.

(** X18. Without the filter a displayed password can be refused by
    copyPassword: on a suitable entropy stream, upper and lower case
    letters give the password ClickAAAAAAA, and copyPassword returns at
    its guard without handing it to the clipboard. *)
Theorem copyPassword_refuses_generated :
  ∃ s : entropy, ∀ (roundedBits : nat → nat → Z) (pg : page),
    ∃ pg' pos',
      generatePassword_on roundedBits 32 s letters_only pg 0%nat
        = Ok pg' pos' ∧
      passwordDisplay pg' = "ClickAAAAAAA" ∧ copyPassword pg' = None.
Proof.
  exists (scripted [2; 37; 34; 28; 36; 0; 0; 0; 0; 0; 0; 0;
                    11; 10; 9; 8; 7; 6; 5; 4; 3; 2; 1]).
  intros roundedBits pg. eexists _, _. unfold generatePassword_on, bind.
  assert (generatePassword 32
            (scripted [2; 37; 34; 28; 36; 0; 0; 0; 0; 0; 0; 0;
                       11; 10; 9; 8; 7; 6; 5; 4; 3; 2; 1]) letters_only 0%nat
          = Ok (Generated "ClickAAAAAAA" 52) 23%nat) as -> by reflexivity.
  split; [reflexivity|]. split; reflexivity.
Qed.

(** * Every password over the alphabet can come out *)

Section Reach.

Lemma get_index str ch :
  ch ∈ chars_of str →
  ∃ k, (k < String.length str)%nat ∧ String.get k str = Some ch.
Proof.
  induction str as [|a str IH]; [by intros ?%elem_of_nil|].
  change (chars_of (String a str)) with (a :: chars_of str).
  intros [->|Hin]%elem_of_cons.
  - exists 0%nat. simpl. split; [lia | done].
  - destruct (IH Hin) as (k & ? & ?). exists (S k). simpl. split; [lia | done].
Qed.

Lemma join_Some pw : join (map Some (chars_of pw)) = pw.
Proof. induction pw as [|a pw IH]; simpl; [done | by rewrite IH]. Qed.

Lemma chars_of_length pw : length (chars_of pw) = String.length pw.
Proof. induction pw as [|a pw IH]; simpl; [done | by rewrite IH]. Qed.

(** A stream that delivers, for each wanted character in turn, an index of
    it in the alphabet makes the fill loop push exactly these
    characters. *)
Lemma fill_loop_scripted alpha (target : list ascii) :
  0 < Z.of_nat (String.length alpha) < 2^31 →
  Forall (λ ch, ch ∈ chars_of alpha) target →
  ∃ ks : list Z, length ks = length target ∧
    ∀ acc s pos fuel,
      (∀ n, (n < length target)%nat → s (pos + n)%nat = nth n ks 0) →
      (32 ≤ fuel)%nat →
      fill_loop fuel s alpha (length target) acc pos
      = Ok (acc ++ map Some target) (pos + length target)%nat.
Proof.
  intros Halpha. induction 1 as [|ch target Hch _ (ks & Hlen & Hrun)].
  - exists []. split; [done|]. intros acc s pos fuel _ _. simpl.
    rewrite app_nil_r. unfold ret. f_equal. lia.
  - destruct (get_index alpha ch Hch) as (k & Hk & Hget).
    exists (Z.of_nat k :: ks). split; [simpl; lia|].
    intros acc s pos fuel Hs Hfuel.
    pose proof (Hs 0%nat ltac:(simpl; lia)) as Hs0.
    replace (pos + 0)%nat with pos in Hs0 by lia. simpl in Hs0.
    cbn [length fill_loop]. unfold bind.
    rewrite secureRandInt_immediate by lia. rewrite Hs0.
    assert (str_at alpha (Z.of_nat k) = Some ch) as ->.
    { unfold str_at. destruct (Z.ltb_spec (Z.of_nat k) 0); [lia|].
      by rewrite Nat2Z.id. }
    rewrite Hrun; [|intros n Hn|done].
    + rewrite <- app_assoc. simpl. f_equal. lia.
    + replace (S pos + n)%nat with (pos + S n)%nat by lia.
      by rewrite Hs by (simpl; lia).
Qed.

End Reach.

(** X19. Without the guarantee, every string of the configured length
    whose characters all belong to the combined alphabet is a possible
    output: some entropy stream makes generatePassword display exactly that
    string, with no word rejected. *)
Theorem generatePassword_onto (c : Config) (pw : string) :
  guarantee c = false → activePools c ≠ [] →
  Z.of_nat (String.length pw) = cfg_length c → cfg_length c < 2^31 →
  (∀ ch, ch ∈ chars_of pw → ch ∈ chars_of (alphabet c)) →
  ∃ s : entropy, ∀ fuel, (32 ≤ fuel)%nat →
    generatePassword fuel s c 0%nat
    = Ok (Generated pw (String.length (alphabet c)))
        (String.length pw + (String.length pw - 1))%nat.
Proof.
  intros Hg Hact Hlen Hmax Hin.
  pose proof (alphabet_size c Hact) as Halpha.
  destruct (fill_loop_scripted (alphabet c) (chars_of pw) ltac:(lia))
    as (ks & Hks & Hfill); [by apply Forall_forall|].
  rewrite chars_of_length in Hks, Hfill.
  set (filled := map Some (chars_of pw)).
  assert (length filled = String.length pw) as Hfl
    by (unfold filled; by rewrite length_map, chars_of_length).
  destruct (shuffle_loop_onto (length filled - 1) filled filled)
    as [js Hsh]; [lia | lia | done | done |].
  exists (scripted (ks ++ js)). intros fuel Hfuel. unfold generatePassword.
  rewrite activePools_length, filteredPools_length, Hg by done.
  unfold bind. cbn [ret length].
  replace (Z.to_nat (cfg_length c - Z.of_nat 0)) with (String.length pw)
    by lia.
  rewrite (Hfill [] (scripted (ks ++ js)) 0%nat fuel); [|intros n Hn|done].
  - cbn [app]. fold filled. unfold secureShuffle.
    rewrite (Hsh (scripted (ks ++ js)) (0 + String.length pw)%nat fuel);
      [|intros n Hn|done].
    + rewrite Hfl. unfold ret, filled. by rewrite join_Some.
    + unfold scripted. replace (0 + String.length pw + n)%nat
        with (length ks + n)%nat by lia.
      apply app_nth2_plus.
  - unfold scripted. simpl. apply app_nth1. lia.
Qed.

Lemma generatePassword_onto_witness :
  guarantee letters_only = false ∧ activePools letters_only ≠ [] ∧
  Z.of_nat (String.length "OpenSesameOK") = cfg_length letters_only ∧
  cfg_length letters_only < 2^31 ∧
  (∀ ch, ch ∈ chars_of "OpenSesameOK" →
         ch ∈ chars_of (alphabet letters_only)) ∧
  ∃ s : entropy, ∀ fuel, (32 ≤ fuel)%nat →
    generatePassword fuel s letters_only 0%nat
    = Ok (Generated "OpenSesameOK" (String.length (alphabet letters_only)))
        (String.length "OpenSesameOK" + (String.length "OpenSesameOK" - 1))%nat.
Proof.
  assert (activePools letters_only ≠ []) as Hact by done.
  assert (Z.of_nat (String.length "OpenSesameOK") = cfg_length letters_only)
    as Hlen by reflexivity.
  assert (cfg_length letters_only < 2^31) as Hmax by (simpl; lia).
  assert (∀ ch, ch ∈ chars_of "OpenSesameOK" →
                ch ∈ chars_of (alphabet letters_only)) as Hin.
  { apply Forall_forall. apply (bool_decide_unpack _). vm_compute. exact I. }
  split; [reflexivity|]. split; [exact Hact|]. split; [exact Hlen|].
  split; [exact Hmax|]. split; [exact Hin|].
  exact (generatePassword_onto letters_only "OpenSesameOK" eq_refl Hact Hlen
           Hmax Hin).
Defined.
